(** * goinmonster: GraphQL-to-SQL compiler and executor

    A shallow embedding of the marshaler (package [marshal]), the PostgreSQL
    dialect (package [dialects] / [dialecttypes]), the SQL converter, the field
    collector and the executor (package [graph]), with the properties the
    specification states about them.

    Conventions of the embedding.
    - A Go [string] is a [string] (a sequence of bytes).
    - A Go [interface{}] holding a GraphQL argument value is a [Value].
    - A Go [map[string]T] is the list of its entries with pairwise distinct
      keys; where the source ranges over a map, the list is read in the order
      in which that range visits the entries.
    - A function that can panic returns an [outcome]. *)

From Stdlib Require Import String Ascii List ZArith Lia Bool Arith PeanoNat.
From Stdlib Require Import DecimalString DecimalZ Permutation.
Import ListNotations.
Open Scope string_scope.

Set Implicit Arguments.
Set Warnings "-register-all".

(** ** Go values and library functions *)

(** What an [interface{}] argument value can hold after the field collector's
    [evaluateValue]: nil, bool, int64, float64, string, []interface{} and
    map[string]interface{}.  A float64 is carried by the text [%v] prints for
    it; floating-point arithmetic is not part of this development. *)
Inductive Value : Type :=
| VNil
| VBool (b : bool)
| VInt (z : Z)
| VFloat (repr : string)
| VStr (s : string)
| VList (items : list Value)
| VMap (entries : list (string * Value)).

(** The result of a Go call that may return an error or panic. *)
Inductive outcome (A : Type) : Type :=
| Ok (a : A)
| Err (msg : string)
| Panic (msg : string).
Arguments Ok {A} a.
Arguments Err {A} msg.
Arguments Panic {A} msg.

(** [strconv.Itoa]. *)
Definition itoa (z : Z) : string := NilZero.string_of_int (Z.to_int z).

(** [strings.Join]. *)
Fixpoint join (parts : list string) (sep : string) : string :=
  match parts with
  | [] => ""
  | [p] => p
  | p :: rest => p ++ sep ++ join rest sep
  end.

(** [m[key]] with the comma-ok form, on a map given by its entries. *)
Fixpoint lookup {A : Type} (key : string) (m : list (string * A)) : option A :=
  match m with
  | [] => None
  | (k, v) :: rest => if String.eqb k key then Some v else lookup key rest
  end.

Definition is_upper (c : ascii) : bool :=
  let n := nat_of_ascii c in (65 <=? n)%nat && (n <=? 90)%nat.

Definition is_lower (c : ascii) : bool :=
  let n := nat_of_ascii c in (97 <=? n)%nat && (n <=? 122)%nat.

(** [strings.ToUpper] and [strings.ToLower] on ASCII text (other bytes are
    left as they are). *)
Fixpoint to_upper (s : string) : string :=
  match s with
  | EmptyString => EmptyString
  | String c rest =>
      String (if is_lower c then ascii_of_nat (nat_of_ascii c - 32) else c)
             (to_upper rest)
  end.

Fixpoint to_lower (s : string) : string :=
  match s with
  | EmptyString => EmptyString
  | String c rest =>
      String (if is_upper c then ascii_of_nat (nat_of_ascii c + 32) else c)
             (to_lower rest)
  end.

(** The prefix slice [s[:n]]: it panics when [n] exceeds [len(s)]. *)
Definition slice_to (s : string) (n : nat) : outcome string :=
  if (n <=? String.length s)%nat then Ok (substring 0 n s)
  else Panic "slice bounds out of range".

(** Insertion of a printed map entry by key, in byte order: [fmt] prints
    the entries of a map sorted by key. *)
Fixpoint insert_by_key (kt : string * string) (l : list (string * string))
  : list (string * string) :=
  match l with
  | [] => [kt]
  | x :: rest =>
      if String.leb (fst kt) (fst x) then kt :: l
      else x :: insert_by_key kt rest
  end.

Definition sort_by_key (l : list (string * string))
  : list (string * string) :=
  fold_right insert_by_key [] l.

(** The text [fmt.Sprintf] gives for the verb [%v]. *)
Fixpoint sprint_v (v : Value) : string :=
  match v with
  | VNil => "<nil>"
  | VBool true => "true"
  | VBool false => "false"
  | VInt z => itoa z
  | VFloat repr => repr
  | VStr s => s
  | VList items => "[" ++ join (map sprint_v items) " " ++ "]"
  | VMap entries =>
      "map[" ++
      join (map (fun kt : string * string => fst kt ++ ":" ++ snd kt)
                (sort_by_key
                   (map (fun kv : string * Value =>
                           (fst kv, sprint_v (snd kv))) entries)))
           " " ++ "]"
  end.

(** [strings.ReplaceAll(s, old, new)] for a pattern [old] of one byte. *)
Fixpoint replace_byte (old : ascii) (new : string) (s : string) : string :=
  match s with
  | EmptyString => EmptyString
  | String c rest =>
      if Ascii.eqb c old then new ++ replace_byte old new rest
      else String c (replace_byte old new rest)
  end.

(** ** Package marshal *)

Module Marshal.

(** [PostgreSQLMarshaler]. *)
Record PostgreSQLMarshaler : Type := mkMarshaler {
  placeholderCounter : Z;
  params : list Value
}.

Definition NewPostgreSQLMarshaler : PostgreSQLMarshaler :=
  mkMarshaler 0 [].

Definition Reset (m : PostgreSQLMarshaler) : PostgreSQLMarshaler :=
  mkMarshaler 0 [].

Definition Params (m : PostgreSQLMarshaler) : list Value := params m.

Definition NextPlaceholder (m : PostgreSQLMarshaler)
  : string * PostgreSQLMarshaler :=
  let m' := mkMarshaler (placeholderCounter m + 1) (params m) in
  ("$" ++ itoa (placeholderCounter m'), m').

Definition AddParam (m : PostgreSQLMarshaler) (v : Value)
  : string * PostgreSQLMarshaler :=
  NextPlaceholder (mkMarshaler (placeholderCounter m) (params m ++ [v])).

(** Every arm of the type switch calls [AddParam]; only nil is answered
    before the switch.  The error result is always nil. *)
Definition MarshalValue (m : PostgreSQLMarshaler) (v : Value)
  : string * PostgreSQLMarshaler :=
  match v with
  | VNil => ("NULL", m)
  | _ => AddParam m v
  end.

(** The placeholders of successive [MarshalValue] calls on one marshaler. *)
Fixpoint marshal_all (m : PostgreSQLMarshaler) (vs : list Value)
  : list string * PostgreSQLMarshaler :=
  match vs with
  | [] => ([], m)
  | v :: rest =>
      let '(p, m1) := MarshalValue m v in
      let '(ps, m2) := marshal_all m1 rest in
      (p :: ps, m2)
  end.

(** [WhereClauseBuilder]: the marshaler is shared by pointer, so the builder
    operations thread it next to the builder's own clauses. *)
Record WhereClauseBuilder : Type := mkWhere { clauses : list string }.

Definition NewWhereClauseBuilder : WhereClauseBuilder := mkWhere [].

Definition condition_text (column op placeholder : string) (value : Value)
  : string :=
  if String.eqb op "eq" || String.eqb op "=" then
    column ++ " = " ++ placeholder
  else if String.eqb op "neq" || String.eqb op "!=" || String.eqb op "<>" then
    column ++ " <> " ++ placeholder
  else if String.eqb op "gt" || String.eqb op ">" then
    column ++ " > " ++ placeholder
  else if String.eqb op "gte" || String.eqb op ">=" then
    column ++ " >= " ++ placeholder
  else if String.eqb op "lt" || String.eqb op "<" then
    column ++ " < " ++ placeholder
  else if String.eqb op "lte" || String.eqb op "<=" then
    column ++ " <= " ++ placeholder
  else if String.eqb op "like" then column ++ " LIKE " ++ placeholder
  else if String.eqb op "ilike" then column ++ " ILIKE " ++ placeholder
  else if String.eqb op "in" then column ++ " = ANY(" ++ placeholder ++ ")"
  else if String.eqb op "nin" || String.eqb op "not_in" then
    column ++ " <> ALL(" ++ placeholder ++ ")"
  else if String.eqb op "is_null" then
    match value with
    | VBool true => column ++ " IS NULL"
    | _ => column ++ " IS NOT NULL"
    end
  else if String.eqb op "contains" then column ++ " @> " ++ placeholder
  else if String.eqb op "contained_by" then column ++ " <@ " ++ placeholder
  else column ++ " " ++ op ++ " " ++ placeholder.

Definition AddCondition (b : WhereClauseBuilder) (m : PostgreSQLMarshaler)
  (column op : string) (value : Value)
  : WhereClauseBuilder * PostgreSQLMarshaler :=
  let '(placeholder, m') := MarshalValue m value in
  (mkWhere (clauses b ++ [condition_text column op placeholder value]), m').

Definition AddRaw (b : WhereClauseBuilder) (condition : string)
  : WhereClauseBuilder :=
  mkWhere (clauses b ++ [condition]).

Definition Build (b : WhereClauseBuilder) : string :=
  match clauses b with
  | [] => ""
  | cs => join cs " AND "
  end.

Definition BuildOr (b : WhereClauseBuilder) : string :=
  match clauses b with
  | [] => ""
  | cs => "(" ++ join cs " OR " ++ ")"
  end.

(** [OrderByBuilder]. *)
Record OrderByBuilder : Type := mkOrder { columns : list string }.

Definition NewOrderByBuilder : OrderByBuilder := mkOrder [].

Definition OrderAdd (b : OrderByBuilder) (column direction : string)
  : OrderByBuilder :=
  let dir := if String.eqb (to_upper direction) "DESC" then "DESC" else "ASC" in
  mkOrder (columns b ++ [column ++ " " ++ dir]).

Definition OrderBuild (b : OrderByBuilder) : list string := columns b.


(** [QuoteString] and [QuoteIdentifier] of the marshaler. *)
Definition QuoteString (s : string) : string :=
  "'" ++ replace_byte "'"%char "''" s ++ "'".

Definition QuoteIdentifier (s : string) : string :=
  let q := String (ascii_of_nat 34) EmptyString in
  q ++ replace_byte (ascii_of_nat 34) (q ++ q) s ++ q.

Definition MarshalStringArray (arr : list string) : string :=
  match arr with
  | [] => "ARRAY[]::text[]"
  | _ => "ARRAY[" ++ join (map QuoteString arr) ", " ++ "]"
  end.

Definition MarshalIntArray (arr : list Z) : string :=
  match arr with
  | [] => "ARRAY[]::integer[]"
  | _ => "ARRAY[" ++ join (map itoa arr) ", " ++ "]"
  end.

Definition OrderAddWithNulls (b : OrderByBuilder) (column direction : string)
  (nullsFirst : bool) : OrderByBuilder :=
  let dir := if String.eqb (to_upper direction) "DESC" then "DESC" else "ASC" in
  let nulls := if nullsFirst then "NULLS FIRST" else "NULLS LAST" in
  mkOrder (columns b ++ [column ++ " " ++ dir ++ " " ++ nulls]).

Definition OrderBuildString (b : OrderByBuilder) : string :=
  join (columns b) ", ".

End Marshal.

(** ** Package ast: the closed variants of the SQL representation *)

Inductive JoinType : Type :=
| JoinInner | JoinLeft | JoinRight | JoinFull | JoinCross
| JoinLateral | JoinLeftLateral.

Inductive OrderDirection : Type := OrderAsc | OrderDesc.

Definition JoinType_eqb (a b : JoinType) : bool :=
  match a, b with
  | JoinInner, JoinInner | JoinLeft, JoinLeft | JoinRight, JoinRight
  | JoinFull, JoinFull | JoinCross, JoinCross | JoinLateral, JoinLateral
  | JoinLeftLateral, JoinLeftLateral => true
  | _, _ => false
  end.

(** [ast.JoinColumn]. *)
Record JoinColumn : Type := mkJoin {
  JoinKind : JoinType;
  JTableName : string;
  JAlias : string;
  On : string;
  SubqueryColumns : list string;
  SubqueryWhere : string;
  SubqueryOrderBy : string;
  JLimit : string
}.

(** ** Packages dialecttypes and dialects *)

Module Dialect.

Record ValidationError : Type := mkVErr {
  VField : string;
  VMessage : string
}.

Record OrderByColumn : Type := mkOrderBy {
  Column : string;
  Direction : OrderDirection
}.

(** [PostgreSQLSelectOptions]. *)
Record PostgreSQLSelectOptions : Type := mkSelect {
  TableName : string;
  TableAlias : string;
  Columns : list string;
  DistinctOn : list string;
  Joins : list JoinColumn;
  Where : list string;
  GroupBy : list string;
  Having : list string;
  OrderBy : list OrderByColumn;
  NullsFirst : option bool;
  Limit : string;
  Offset : string;
  ForUpdate : bool;
  ForUpdateOf : list string
}.

Definition nonempty {A : Type} (l : list A) : bool :=
  match l with [] => false | _ => true end.

(** Check 2 of [Validate]: the loop stops at the first DISTINCT ON column
    that has no equal ORDER BY column at its index. *)
Fixpoint distinct_prefix_mismatch (distinctOn : list string)
  (orderBy : list OrderByColumn) : bool :=
  match distinctOn with
  | [] => false
  | col :: rest =>
      match orderBy with
      | [] => true
      | o :: os =>
          if String.eqb (Column o) col then distinct_prefix_mismatch rest os
          else true
      end
  end.

Definition is_outer_join (j : JoinColumn) : bool :=
  JoinType_eqb (JoinKind j) JoinLeft || JoinType_eqb (JoinKind j) JoinRight
  || JoinType_eqb (JoinKind j) JoinFull.

Definition is_left_join (j : JoinColumn) : bool :=
  JoinType_eqb (JoinKind j) JoinLeft.

Definition Validate (o : PostgreSQLSelectOptions) : list ValidationError :=
  let e1 :=
    if nonempty (DistinctOn o) && nonempty (GroupBy o) then
      [mkVErr "DistinctOn/GroupBy"
         "DISTINCT ON and GROUP BY should not be used together; they serve similar purposes"]
    else [] in
  let e2 :=
    if nonempty (DistinctOn o) && nonempty (OrderBy o)
       && distinct_prefix_mismatch (DistinctOn o) (OrderBy o) then
      [mkVErr "DistinctOn/OrderBy"
         "ORDER BY must start with DISTINCT ON columns in the same order"]
    else [] in
  let e4 :=
    if ForUpdate o && negb (nonempty (ForUpdateOf o))
       && existsb is_outer_join (Joins o) then
      [mkVErr "ForUpdate/Join"
         "FOR UPDATE is not recommended with LEFT/RIGHT/FULL OUTER JOINs; consider using FOR UPDATE OF specific_table"]
    else [] in
  let e5 :=
    if nonempty (Having o) && negb (nonempty (GroupBy o)) then
      [mkVErr "Having" "HAVING clause requires GROUP BY"]
    else [] in
  let e6 :=
    if nonempty (Having o) && existsb is_left_join (Joins o) then
      [mkVErr "Join/Having"
         "LEFT JOIN with HAVING on joined table aggregates may indicate INNER JOIN is more appropriate"]
    else [] in
  e1 ++ e2 ++ e4 ++ e5 ++ e6.

Definition dquote : string := String (ascii_of_nat 34) EmptyString.
Definition nl : string := String (ascii_of_nat 10) EmptyString.

(** [strings.ReplaceAll] doubling every double-quote byte of the identifier. *)
Fixpoint EscapeIdentifier (identifier : string) : string :=
  match identifier with
  | EmptyString => EmptyString
  | String c rest =>
      if Ascii.eqb c (ascii_of_nat 34)
      then String c (String c (EscapeIdentifier rest))
      else String c (EscapeIdentifier rest)
  end.

Definition QuoteIdentifier (identifier : string) : string :=
  dquote ++ EscapeIdentifier identifier ++ dquote.

Definition FormatJoinType (joinType : JoinType) : string :=
  match joinType with
  | JoinInner => "INNER JOIN"
  | JoinLeft => "LEFT JOIN"
  | JoinRight => "RIGHT JOIN"
  | JoinFull => "FULL JOIN"
  | JoinCross => "CROSS JOIN"
  | JoinLateral => "CROSS JOIN LATERAL"
  | JoinLeftLateral => "LEFT JOIN LATERAL"
  end.

Definition FormatOrderDirection (dir : OrderDirection) : string :=
  match dir with OrderAsc => "ASC" | OrderDesc => "DESC" end.

Definition FormatNullsOrder (nullsFirst : option bool) : string :=
  match nullsFirst with
  | None => ""
  | Some true => "NULLS FIRST"
  | Some false => "NULLS LAST"
  end.

Definition str_nonempty (s : string) : bool :=
  negb (String.eqb s "").

(** The text one iteration of the JOIN loop of [BuildSelect] writes. *)
Definition join_text (j : JoinColumn) : string :=
  let isLateralSubquery :=
    str_nonempty (JLimit j) || nonempty (SubqueryColumns j)
    || str_nonempty (SubqueryWhere j) || str_nonempty (SubqueryOrderBy j) in
  nl ++ FormatJoinType (JoinKind j) ++ " " ++
  (if isLateralSubquery then
     "(" ++ nl ++ "    SELECT " ++
     (if nonempty (SubqueryColumns j) then join (SubqueryColumns j) ", "
      else "*") ++
     nl ++ "    FROM " ++ JTableName j ++
     (if str_nonempty (SubqueryWhere j)
      then nl ++ "    WHERE " ++ SubqueryWhere j else "") ++
     (if str_nonempty (SubqueryOrderBy j)
      then nl ++ "    ORDER BY " ++ SubqueryOrderBy j else "") ++
     (if str_nonempty (JLimit j)
      then nl ++ "    LIMIT " ++ JLimit j else "") ++
     nl ++ ")" ++
     (if str_nonempty (JAlias j) then " " ++ JAlias j else "")
   else
     JTableName j ++
     (if str_nonempty (JAlias j) then " " ++ JAlias j else "")) ++
  (if str_nonempty (On j) then " ON " ++ On j else "").

Definition order_part (o : OrderByColumn) : string :=
  Column o ++ " " ++ FormatOrderDirection (Direction o).

(** The statement text of [BuildSelect], clause by clause. *)
Definition select_text (opts : PostgreSQLSelectOptions) : string :=
  "SELECT " ++
  (if nonempty (DistinctOn opts)
   then "DISTINCT ON (" ++ join (DistinctOn opts) ", " ++ ") " else "") ++
  (if nonempty (Columns opts) then join (Columns opts) ", " else "*") ++
  nl ++ "FROM " ++ TableName opts ++
  (if str_nonempty (TableAlias opts) then " " ++ TableAlias opts else "") ++
  String.concat "" (map join_text (Joins opts)) ++
  (if nonempty (Where opts)
   then nl ++ "WHERE " ++ join (Where opts) (nl ++ "  AND ") else "") ++
  (if nonempty (GroupBy opts)
   then nl ++ "GROUP BY " ++ join (GroupBy opts) ", " else "") ++
  (if nonempty (Having opts)
   then nl ++ "HAVING " ++ join (Having opts) " AND " else "") ++
  (if nonempty (OrderBy opts)
   then nl ++ "ORDER BY " ++ join (map order_part (OrderBy opts)) ", " ++
        match NullsFirst opts with
        | Some _ => " " ++ FormatNullsOrder (NullsFirst opts)
        | None => ""
        end
   else "") ++
  (if str_nonempty (Limit opts) then nl ++ "LIMIT " ++ Limit opts else "") ++
  (if str_nonempty (Offset opts) then " OFFSET " ++ Offset opts else "") ++
  (if ForUpdate opts
   then nl ++ "FOR UPDATE" ++
        (if nonempty (ForUpdateOf opts)
         then " OF " ++ join (ForUpdateOf opts) ", " else "")
   else "").

(** [BuildSelect]: the findings of [Validate] are computed first and returned
    next to the text, whatever they are. *)
Definition BuildSelect (opts : PostgreSQLSelectOptions)
  : string * list ValidationError :=
  let errors := Validate opts in
  (select_text opts, errors).

(** [PostgreSQLUpdateOptions] and [PostgreSQLDeleteOptions]; the FROM and
    USING join lists are never filled by the converter. *)
Record PostgreSQLUpdateOptions : Type := mkUpdate {
  UTableName : string;
  UTableAlias : string;
  USet : list (string * string);
  UFrom : list JoinColumn;
  UWhere : list string;
  UReturning : list string
}.

Record PostgreSQLDeleteOptions : Type := mkDelete {
  DTableName : string;
  DTableAlias : string;
  DUsing : list JoinColumn;
  DWhere : list string;
  DReturning : list string
}.

Fixpoint from_text (first : bool) (js : list JoinColumn) : string :=
  match js with
  | [] => ""
  | j :: rest =>
      (if first then "" else nl ++ FormatJoinType (JoinKind j) ++ " ") ++
      JTableName j ++
      (if str_nonempty (On j) then " ON " ++ On j else "") ++
      from_text false rest
  end.

Definition BuildUpdate (opts : PostgreSQLUpdateOptions) : string :=
  "UPDATE " ++ UTableName opts ++
  (if str_nonempty (UTableAlias opts) then " " ++ UTableAlias opts else "") ++
  nl ++ "SET " ++
  join (map (fun cv : string * string => fst cv ++ " = " ++ snd cv)
            (USet opts)) ", " ++
  (if nonempty (UFrom opts) then nl ++ "FROM " ++ from_text true (UFrom opts)
   else "") ++
  (if nonempty (UWhere opts)
   then nl ++ "WHERE " ++ join (UWhere opts) (nl ++ "  AND ") else "") ++
  (if nonempty (UReturning opts)
   then nl ++ "RETURNING " ++ join (UReturning opts) ", " else "").

Definition BuildDelete (opts : PostgreSQLDeleteOptions) : string :=
  "DELETE FROM " ++ DTableName opts ++
  (if str_nonempty (DTableAlias opts) then " " ++ DTableAlias opts else "") ++
  (if nonempty (DUsing opts)
   then nl ++ "USING " ++ join (map JTableName (DUsing opts)) ", " else "") ++
  (if nonempty (DWhere opts)
   then nl ++ "WHERE " ++ join (DWhere opts) (nl ++ "  AND ") else "") ++
  (if nonempty (DReturning opts)
   then nl ++ "RETURNING " ++ join (DReturning opts) ", " else "").


(** [EscapeString], [QuoteString] and [Placeholder] of the dialect. *)
Definition EscapeString (value : string) : string :=
  replace_byte "'"%char "''" value.

Definition QuoteString (value : string) : string :=
  "'" ++ EscapeString value ++ "'".

Definition Placeholder (n : Z) : string := "$" ++ itoa n.

(** [OnConflictClause], [DoUpdateClause] and [PostgreSQLInsertOptions]. *)
Record DoUpdateClause : Type := mkDoUpdate {
  SetColumns : list string;
  SetValues : list string;
  DoWhere : list string
}.

Record OnConflictClause : Type := mkOnConflict {
  ConflictColumns : list string;
  DoNothing : bool;
  DoUpdate : option DoUpdateClause
}.

Record PostgreSQLInsertOptions : Type := mkInsert {
  ITableName : string;
  IColumns : list string;
  IValues : list (list string);
  OnConflict : option OnConflictClause;
  IReturning : list string
}.

(** The SET parts of DO UPDATE: the loop runs over [SetColumns] and indexes
    [SetValues] with the same index, which panics when the values run
    out. *)
Fixpoint set_parts (setColumns setValues : list string)
  : outcome (list string) :=
  match setColumns with
  | [] => Ok []
  | col :: cols =>
      match setValues with
      | [] => Panic "index out of range"
      | val :: vals =>
          match set_parts cols vals with
          | Ok parts => Ok ((col ++ " = " ++ val) :: parts)
          | Err msg => Err msg
          | Panic msg => Panic msg
          end
      end
  end.

(** The ON CONFLICT clause of [BuildInsert]. *)
Definition on_conflict_text (oc : OnConflictClause) : outcome string :=
  let head :=
    nl ++ "ON CONFLICT " ++
    (if nonempty (ConflictColumns oc)
     then "(" ++ join (ConflictColumns oc) ", " ++ ") " else "") in
  if DoNothing oc then Ok (head ++ "DO NOTHING")
  else
    match DoUpdate oc with
    | Some du =>
        match set_parts (SetColumns du) (SetValues du) with
        | Ok parts =>
            Ok (head ++ "DO UPDATE SET " ++ join parts ", " ++
                (if nonempty (DoWhere du)
                 then " WHERE " ++ join (DoWhere du) " AND " else ""))
        | Err msg => Err msg
        | Panic msg => Panic msg
        end
    | None => Ok head
    end.

Definition BuildInsert (opts : PostgreSQLInsertOptions) : outcome string :=
  let head :=
    "INSERT INTO " ++ ITableName opts ++
    (if nonempty (IColumns opts)
     then " (" ++ join (IColumns opts) ", " ++ ")" else "") ++
    nl ++ "VALUES " ++
    join (map (fun row => "(" ++ join row ", " ++ ")") (IValues opts)) ", " in
  let returning :=
    if nonempty (IReturning opts)
    then nl ++ "RETURNING " ++ join (IReturning opts) ", " else "" in
  match OnConflict opts with
  | None => Ok (head ++ returning)
  | Some oc =>
      match on_conflict_text oc with
      | Ok conflict => Ok (head ++ conflict ++ returning)
      | Err msg => Err msg
      | Panic msg => Panic msg
      end
  end.

End Dialect.

(** ** Package graph: schema model and selection tree *)

(** [TypeRef]; the [*TypeRef] of a list element is nil or a reference. *)
Inductive TypeRef : Type :=
| mkTypeRef (Name : string) (NonNull IsList : bool) (ListElem : option TypeRef).

(** [FieldDefinition] and [ObjectType], with the members the converter, the
    collector and the executor read. *)
Record FieldDefinition : Type := mkFieldDef {
  FType : option TypeRef
}.

Record ObjectType : Type := mkObjectType {
  OFields : list (string * FieldDefinition);
  Implements : list string
}.

(** [Schema]: the [typeMap] behind [GetType]. *)
Record Schema : Type := mkSchema {
  typeMap : list (string * ObjectType)
}.

Definition GetType (s : Schema) (name : string) : option ObjectType :=
  lookup name (typeMap s).

Record DirectiveInstance : Type := mkDirective {
  DName : string;
  DArguments : list (string * Value)
}.

(** [SelectedField] and [SelectionSet]; [Selections] is a pointer that may
    be nil. *)
Inductive SelectedField : Type :=
| mkField (Name Alias : string) (Arguments : list (string * Value))
          (Selections : option SelectionSet)
          (Directives : list DirectiveInstance)
with SelectionSet : Type :=
| mkSelectionSet (Fields : list SelectedField) (Typename : bool).

Definition Name (f : SelectedField) : string :=
  let 'mkField n _ _ _ _ := f in n.
Definition Alias (f : SelectedField) : string :=
  let 'mkField _ a _ _ _ := f in a.
Definition Arguments (f : SelectedField) : list (string * Value) :=
  let 'mkField _ _ a _ _ := f in a.
Definition Selections (f : SelectedField) : option SelectionSet :=
  let 'mkField _ _ _ s _ := f in s.
Definition Directives (f : SelectedField) : list DirectiveInstance :=
  let 'mkField _ _ _ _ d := f in d.
Definition Fields (s : SelectionSet) : list SelectedField :=
  let 'mkSelectionSet fs _ := s in fs.
Definition Typename (s : SelectionSet) : bool :=
  let 'mkSelectionSet _ t := s in t.

Definition GetName (sf : SelectedField) : string :=
  if negb (String.eqb (Alias sf) "") then Alias sf else Name sf.

Definition HasSelection (sf : SelectedField) : bool :=
  match Selections sf with
  | Some sel => Dialect.nonempty (Fields sel)
  | None => false
  end.

(** The fields of a selection pointer, empty for nil. *)
Definition fields_of (sel : option SelectionSet) : list SelectedField :=
  match sel with Some s => Fields s | None => [] end.

(** [unwrapTypeName]: the recursion on a non-nil reference, then the nil
    test of the entry point. *)
Fixpoint unwrapRef (t : TypeRef) : string :=
  match t with
  | mkTypeRef name _ isList elem =>
      if isList then
        match elem with
        | None => ""
        | Some e => unwrapRef e
        end
      else name
  end.

Definition unwrapTypeName (t : option TypeRef) : string :=
  match t with
  | None => ""
  | Some r => unwrapRef r
  end.

(** ** Maps built by the program

    A map the program fills and later ranges over is kept as the list of its
    entries in insertion order; the order in which a range statement visits
    them is chosen by the Go runtime and is given to the model as a function
    [ord], of which only [visits_all] is known. *)

Definition range_order (A : Type) : Type :=
  list (string * A) -> list (string * A).

Definition visits_all {A : Type} (ord : range_order A) : Prop :=
  forall entries, Permutation (ord entries) entries.

(** [m[key] = v]. *)
Fixpoint map_set {A : Type} (key : string) (v : A) (m : list (string * A))
  : list (string * A) :=
  match m with
  | [] => [(key, v)]
  | (k, w) :: rest =>
      if String.eqb k key then (k, v) :: rest
      else (k, w) :: map_set key v rest
  end.

(** ** Package graph: the SQL converter *)

Module Convert.
Import Marshal Dialect.

(** [JoinConfig]. *)
Record JoinConfig : Type := mkJoinConfig {
  SourceTable : string;
  SourceColumn : string;
  TargetTable : string;
  TargetColumn : string;
  JoinType_ : JoinType;
  RelationType : string
}.

(** The value behind the [dialect.Dialect] interface: the package's
    PostgreSQL value, or an implementation that is not a
    [PostgreSQLDialect], known by its [QuoteIdentifier]. *)
Inductive DialectImpl : Type :=
| PostgreSQL
| OtherDialect (quote : string -> string).

Definition dQuoteIdentifier (d : DialectImpl) : string -> string :=
  match d with
  | PostgreSQL => QuoteIdentifier
  | OtherDialect quote => quote
  end.

(** [SQLConverter]; the marshaler is reset at the start of every conversion,
    so a conversion starts from [Reset] of whatever it held. *)
Record SQLConverter : Type := mkConverter {
  schema : Schema;
  dialect : DialectImpl;
  marshaler : PostgreSQLMarshaler;
  tableMap : list (string * string);
  columnMap : list (string * list (string * string));
  joinConfig : list (string * JoinConfig)
}.

Fixpoint snake_from (i : nat) (s : string) : string :=
  match s with
  | EmptyString => EmptyString
  | String r rest =>
      let body :=
        String (if is_upper r then ascii_of_nat (nat_of_ascii r + 32) else r)
               (snake_from (S i) rest) in
      if (0 <? i)%nat && is_upper r then String "_"%char body else body
  end.

(** [toSnakeCase], on ASCII text. *)
Definition toSnakeCase (s : string) : string := snake_from 0 s.

Definition getTableName (c : SQLConverter) (typeName : string) : string :=
  match lookup typeName (tableMap c) with
  | Some table => table
  | None => toSnakeCase typeName
  end.

Definition getColumnName (c : SQLConverter) (typeName fieldName : string)
  : string :=
  match lookup typeName (columnMap c) with
  | Some cols =>
      match lookup fieldName cols with
      | Some col => col
      | None => toSnakeCase fieldName
      end
  | None => toSnakeCase fieldName
  end.

Definition unwrapFieldType (typeName fieldName : string) (s : Schema)
  : string :=
  match GetType s typeName with
  | Some objType =>
      match lookup fieldName (OFields objType) with
      | Some field => unwrapTypeName (FType field)
      | None => ""
      end
  | None => ""
  end.

Definition mem (op : string) (names : list string) : bool :=
  existsb (String.eqb op) names.

Definition convertGraphQLOperator (op : string) : string :=
  if mem op ["_eq"; "eq"] then "="
  else if mem op ["_neq"; "neq"; "_ne"; "ne"] then "<>"
  else if mem op ["_gt"; "gt"] then ">"
  else if mem op ["_gte"; "gte"; "_ge"; "ge"] then ">="
  else if mem op ["_lt"; "lt"] then "<"
  else if mem op ["_lte"; "lte"; "_le"; "le"] then "<="
  else if mem op ["_like"; "like"] then "like"
  else if mem op ["_ilike"; "ilike"] then "ilike"
  else if mem op ["_in"; "in"] then "in"
  else if mem op ["_nin"; "nin"; "_not_in"; "not_in"] then "nin"
  else if mem op ["_is_null"; "is_null"; "isNull"] then "is_null"
  else if mem op ["_contains"; "contains"] then "contains"
  else if mem op ["_contained_by"; "contained_by"; "containedBy"]
  then "contained_by"
  else op.

(** The builder a filter is written to, with the marshaler it points to. *)
Definition wstate : Type := (WhereClauseBuilder * PostgreSQLMarshaler)%type.

Definition add_condition (st : wstate) (column op : string) (v : Value)
  : wstate :=
  AddCondition (fst st) (snd st) column op v.

(** The arms of the key switch of [buildWhereFromFilter], each over the
    recursive call [recur] on a nested filter object. *)

(** [_and] / [AND]: every map in the list is written to the same builder. *)
Fixpoint and_loop (recur : Value -> wstate -> wstate) (conditions : list Value)
  (st : wstate) : wstate :=
  match conditions with
  | [] => st
  | cond :: rest =>
      and_loop recur rest
        match cond with
        | VMap _ => recur cond st
        | _ => st
        end
  end.

(** [_or] / [OR]: every map in the list is built on its own and added to
    [orBuilder] as one raw condition. *)
Fixpoint or_loop (recur : Value -> wstate -> wstate) (conditions : list Value)
  (orSt : wstate) : wstate :=
  match conditions with
  | [] => orSt
  | cond :: rest =>
      or_loop recur rest
        match cond with
        | VMap _ =>
            let sub := recur cond (NewWhereClauseBuilder, snd orSt) in
            (AddRaw (fst orSt) (Build (fst sub)), snd sub)
        | _ => orSt
        end
  end.

(** An operator map [{op: operand, ...}] on a column. *)
Fixpoint ops_loop (column : string) (ops : list (string * Value))
  (st : wstate) : wstate :=
  match ops with
  | [] => st
  | (op, operand) :: rest =>
      ops_loop column rest
        (add_condition st column (convertGraphQLOperator op) operand)
  end.

Definition filter_entry (recur : Value -> wstate -> wstate)
  (quote : string -> string) (tableAlias key : string) (value : Value)
  (st : wstate) : wstate :=
  if mem key ["_and"; "AND"] then
    match value with
    | VList conditions => and_loop recur conditions st
    | _ => st
    end
  else if mem key ["_or"; "OR"] then
    match value with
    | VList conditions =>
        let orSt :=
          or_loop recur conditions (NewWhereClauseBuilder, snd st) in
        (AddRaw (fst st) (BuildOr (fst orSt)), snd orSt)
    | _ => st
    end
  else if mem key ["_not"; "NOT"] then
    match value with
    | VMap _ =>
        let sub := recur value (NewWhereClauseBuilder, snd st) in
        (AddRaw (fst st) ("NOT (" ++ Build (fst sub) ++ ")"), snd sub)
    | _ => st
    end
  else
    let column := tableAlias ++ "." ++ quote (toSnakeCase key) in
    match value with
    | VMap ops => ops_loop column ops st
    | _ => add_condition st column "eq" value
    end.

Fixpoint entries_loop (recur : Value -> wstate -> wstate)
  (quote : string -> string) (tableAlias : string)
  (entries : list (string * Value)) (st : wstate) : wstate :=
  match entries with
  | [] => st
  | (key, value) :: rest =>
      entries_loop recur quote tableAlias rest
        (filter_entry recur quote tableAlias key value st)
  end.

(** [buildWhereFromFilter] on a filter object; [AddCondition] never returns
    an error, so neither does this function. *)
Fixpoint buildWhereFromFilterV (quote : string -> string)
  (tableAlias : string) (filter : Value) (st : wstate) {struct filter}
  : wstate :=
  match filter with
  | VMap entries =>
      entries_loop (buildWhereFromFilterV quote tableAlias) quote tableAlias
        entries st
  | _ => st
  end.

Definition buildWhereFromFilter (quote : string -> string)
  (filter : list (string * Value)) (tableAlias : string) (st : wstate)
  : wstate :=
  buildWhereFromFilterV quote tableAlias (VMap filter) st.

Definition bind {A B : Type} (x : outcome A) (k : A -> outcome B)
  : outcome B :=
  match x with
  | Ok a => k a
  | Err msg => Err msg
  | Panic msg => Panic msg
  end.

Notation "x <- e ;; k" := (bind e (fun x => k))
  (at level 61, e at next level, right associativity).

(** The part of [ResolveInfo] a conversion reads. *)
Record ResolveInfo : Type := mkInfo {
  ReturnType : option TypeRef;
  IArguments : list (string * Value);
  Selection : option SelectionSet
}.

Definition sub_column_names (c : SQLConverter) (typeName : string)
  (field : SelectedField) : list string :=
  map (fun subField =>
         getColumnName c (unwrapFieldType typeName (Name field) (schema c))
                       (Name subField))
      (fields_of (Selections field)).

(** The join a relation field contributes, for its alias [joinAlias]. *)
Definition relation_join (c : SQLConverter) (typeName tableAlias : string)
  (field : SelectedField) (joinCfg : JoinConfig) (joinAlias : string)
  : JoinColumn :=
  let quote := dQuoteIdentifier (dialect c) in
  let join0 :=
    mkJoin (JoinType_ joinCfg) (quote (TargetTable joinCfg)) joinAlias
      (tableAlias ++ "." ++ quote (SourceColumn joinCfg) ++ " = " ++
       joinAlias ++ "." ++ quote (TargetColumn joinCfg))
      [] "" "" "" in
  if String.eqb (RelationType joinCfg) "hasMany" && HasSelection field then
    mkJoin JoinLeftLateral (JTableName join0) (JAlias join0) (On join0)
      (sub_column_names c typeName field)
      (quote (TargetColumn joinCfg) ++ " = " ++ tableAlias ++ "." ++
       quote (SourceColumn joinCfg))
      ""
      match lookup "limit" (Arguments field) with
      | Some limit => sprint_v limit
      | None => ""
      end
  else join0.

Definition relation_columns (c : SQLConverter) (typeName : string)
  (field : SelectedField) (joinAlias : string) : list string :=
  if HasSelection field then
    map (fun subField =>
           joinAlias ++ "." ++
           dQuoteIdentifier (dialect c)
             (getColumnName c
                (unwrapFieldType typeName (Name field) (schema c))
                (Name subField)) ++
           " AS " ++ joinAlias ++ "_" ++ GetName subField)
        (fields_of (Selections field))
  else [].

Definition scalar_column (c : SQLConverter) (typeName tableAlias : string)
  (field : SelectedField) : string :=
  let colName := getColumnName c typeName (Name field) in
  let alias := tableAlias ++ "." ++ dQuoteIdentifier (dialect c) colName in
  if negb (String.eqb (Alias field) "")
     && negb (String.eqb (Alias field) (Name field))
  then alias ++ " AS " ++ dQuoteIdentifier (dialect c) (Alias field)
  else alias.

(** The loop of [collectColumnsAndJoins] over the selected fields, with the
    columns and joins gathered so far. *)
Fixpoint collect_loop (c : SQLConverter) (typeName tableAlias : string)
  (fields : list SelectedField) (columns : list string)
  (joins : list JoinColumn) : outcome (list string * list JoinColumn) :=
  match fields with
  | [] => Ok (columns, joins)
  | field :: rest =>
      let joinKey := typeName ++ "." ++ Name field in
      match lookup joinKey (joinConfig c) with
      | Some joinCfg =>
          initial <- slice_to (GetName field) 1 ;;
          let joinAlias :=
            initial ++ "_" ++
            substring 0 (Nat.min 3 (String.length (Name field))) (Name field) in
          collect_loop c typeName tableAlias rest
            (columns ++ relation_columns c typeName field joinAlias)
            (joins ++ [relation_join c typeName tableAlias field joinCfg
                         joinAlias])
      | None =>
          collect_loop c typeName tableAlias rest
            (columns ++ [scalar_column c typeName tableAlias field]) joins
      end
  end.

Definition collectColumnsAndJoins (c : SQLConverter)
  (typeName tableAlias : string) (selections : option SelectionSet)
  : outcome (list string * list JoinColumn) :=
  match selections with
  | None => Ok ([], [])
  | Some sel => collect_loop c typeName tableAlias (Fields sel) [] []
  end.

(** One [where] or [filter] argument of [processArguments]. *)
Definition apply_filter (quote : string -> string) (arg : option Value)
  (st : PostgreSQLSelectOptions * PostgreSQLMarshaler)
  : PostgreSQLSelectOptions * PostgreSQLMarshaler :=
  let '(opts, m) := st in
  match arg with
  | Some (VMap filter) =>
      let res :=
        buildWhereFromFilter quote filter (TableAlias opts)
          (NewWhereClauseBuilder, m) in
      let clause := Build (fst res) in
      (if str_nonempty clause then
         mkSelect (TableName opts) (TableAlias opts) (Columns opts)
           (DistinctOn opts) (Joins opts) (Where opts ++ [clause])
           (GroupBy opts) (Having opts) (OrderBy opts) (NullsFirst opts)
           (Limit opts) (Offset opts) (ForUpdate opts) (ForUpdateOf opts)
       else opts, snd res)
  | _ => st
  end.

(** The [orderBy] argument given as a list: every entry goes through an
    [OrderByBuilder], whose finished strings become the columns. *)
Fixpoint order_list_builder (quote : string -> string) (tableAlias : string)
  (orderBy : list Value) (b : OrderByBuilder) : OrderByBuilder :=
  match orderBy with
  | [] => b
  | o :: rest =>
      order_list_builder quote tableAlias rest
        match o with
        | VMap orderMap =>
            match lookup "field" orderMap with
            | Some (VStr field) =>
                let direction :=
                  match lookup "direction" orderMap with
                  | Some (VStr dir) => dir
                  | _ => "ASC"
                  end in
                OrderAdd b (tableAlias ++ "." ++ quote (toSnakeCase field))
                         direction
            | _ => b
            end
        | _ => b
        end
  end.

Definition order_by_columns (quote : string -> string) (tableAlias : string)
  (arg : option Value) : list OrderByColumn :=
  match arg with
  | Some (VList orderBy) =>
      map (fun col => mkOrderBy col OrderAsc)
          (OrderBuild
             (order_list_builder quote tableAlias orderBy NewOrderByBuilder))
  | Some (VMap orderBy) =>
      match lookup "field" orderBy with
      | Some (VStr field) =>
          let direction :=
            match lookup "direction" orderBy with
            | Some (VStr dir) =>
                if String.eqb (to_upper dir) "DESC" then OrderDesc
                else OrderAsc
            | _ => OrderAsc
            end in
          [mkOrderBy (tableAlias ++ "." ++ quote (toSnakeCase field))
                     direction]
      | _ => []
      end
  | _ => []
  end.

(** [processArguments]; it returns no error, as [buildWhereFromFilter]
    returns none.  A nil argument map behaves as the empty one. *)
Definition processArguments (quote : string -> string)
  (args : list (string * Value))
  (st : PostgreSQLSelectOptions * PostgreSQLMarshaler)
  : PostgreSQLSelectOptions * PostgreSQLMarshaler :=
  let st1 := apply_filter quote (lookup "where" args) st in
  let '(o2, m2) := apply_filter quote (lookup "filter" args) st1 in
  let '(where3, m3) :=
    match lookup "id" args with
    | Some id =>
        let '(placeholder, m') := MarshalValue m2 id in
        (app (Where o2) [TableAlias o2 ++ ".id = " ++ placeholder], m')
    | None => (Where o2, m2)
    end in
  let limit :=
    match lookup "limit" args with
    | Some limit => sprint_v limit
    | None =>
        match lookup "first" args with
        | Some first => sprint_v first
        | None => Limit o2
        end
    end in
  let offset :=
    match lookup "offset" args with
    | Some offset => sprint_v offset
    | None =>
        match lookup "skip" args with
        | Some skip => sprint_v skip
        | None => Offset o2
        end
    end in
  (mkSelect (TableName o2) (TableAlias o2) (Columns o2) (DistinctOn o2)
     (Joins o2) where3 (GroupBy o2) (Having o2)
     (OrderBy o2 ++
      order_by_columns quote (TableAlias o2) (lookup "orderBy" args))
     (NullsFirst o2) limit offset (ForUpdate o2) (ForUpdateOf o2), m3).

(** [SQLSelectResult]. *)
Record SQLSelectResult : Type := mkSelectResult {
  Query : string;
  RParams : list Value;
  Options : PostgreSQLSelectOptions;
  Errors : list ValidationError
}.

Definition ConvertToSelect (c : SQLConverter) (info : ResolveInfo)
  : outcome SQLSelectResult :=
  let m := Reset (marshaler c) in
  match ReturnType info with
  | None => Err "cannot determine return type"
  | Some rootType =>
      let typeName := unwrapTypeName (Some rootType) in
      let tableName := getTableName c typeName in
      initial <- slice_to typeName 1 ;;
      let opts :=
        mkSelect (dQuoteIdentifier (dialect c) tableName) (to_lower initial)
          [] [] [] [] [] [] [] None "" "" false [] in
      cj <- collectColumnsAndJoins c typeName (TableAlias opts)
              (Selection info) ;;
      let opts :=
        mkSelect (TableName opts) (TableAlias opts) (fst cj) [] (snd cj)
          [] [] [] [] None "" "" false [] in
      let '(opts, m) :=
        processArguments (dQuoteIdentifier (dialect c)) (IArguments info)
          (opts, m) in
      match dialect c with
      | PostgreSQL =>
          let '(query, errors) := BuildSelect opts in
          Ok (mkSelectResult query (Params m) opts errors)
      | OtherDialect _ =>
          Err "dialect does not support PostgreSQL SELECT building"
      end
  end.

(** [SQLMutationResult]. *)
Record SQLMutationResult : Type := mkMutationResult {
  MQuery : string;
  MParams : list Value;
  Operation : string
}.

(** The SET loop of [ConvertToUpdate]: one placeholder per entry of [set],
    stored under the quoted column name. *)
Fixpoint set_loop (c : SQLConverter) (typeName : string)
  (set : list (string * Value)) (setMap : list (string * string))
  (m : PostgreSQLMarshaler) : list (string * string) * PostgreSQLMarshaler :=
  match set with
  | [] => (setMap, m)
  | (field, value) :: rest =>
      let '(placeholder, m') := MarshalValue m value in
      set_loop c typeName rest
        (map_set (dQuoteIdentifier (dialect c)
                    (getColumnName c typeName field)) placeholder setMap)
        m'
  end.

Definition returning_columns (c : SQLConverter) (typeName : string)
  (returning : list string) : list string :=
  map (fun field =>
         dQuoteIdentifier (dialect c) (getColumnName c typeName field))
      returning.

(** [ConvertToUpdate]; [ord] is the order in which [BuildUpdate] ranges over
    the SET map. *)
Definition ConvertToUpdate (ord : range_order string) (c : SQLConverter)
  (typeName : string) (where_ set : list (string * Value))
  (returning : list string) : outcome SQLMutationResult :=
  let m := Reset (marshaler c) in
  let tableName := getTableName c typeName in
  initial <- slice_to typeName 1 ;;
  let tableAlias := to_lower initial in
  let '(setMap, m) := set_loop c typeName set [] m in
  let '(whereBuilder, m) :=
    buildWhereFromFilter (dQuoteIdentifier (dialect c)) where_ tableAlias
      (NewWhereClauseBuilder, m) in
  let returningCols := returning_columns c typeName returning in
  match dialect c with
  | PostgreSQL =>
      let opts :=
        mkUpdate (QuoteIdentifier tableName) tableAlias (ord setMap) []
          [Build whereBuilder] returningCols in
      Ok (mkMutationResult (BuildUpdate opts) (Params m) "UPDATE")
  | OtherDialect _ =>
      Err "dialect does not support PostgreSQL UPDATE building"
  end.

Definition ConvertToDelete (c : SQLConverter) (typeName : string)
  (where_ : list (string * Value)) (returning : list string)
  : outcome SQLMutationResult :=
  let m := Reset (marshaler c) in
  let tableName := getTableName c typeName in
  initial <- slice_to typeName 1 ;;
  let tableAlias := to_lower initial in
  let '(whereBuilder, m) :=
    buildWhereFromFilter (dQuoteIdentifier (dialect c)) where_ tableAlias
      (NewWhereClauseBuilder, m) in
  let returningCols := returning_columns c typeName returning in
  match dialect c with
  | PostgreSQL =>
      let opts :=
        mkDelete (QuoteIdentifier tableName) tableAlias []
          [Build whereBuilder] returningCols in
      Ok (mkMutationResult (BuildDelete opts) (Params m) "DELETE")
  | OtherDialect _ =>
      Err "dialect does not support PostgreSQL DELETE building"
  end.


(** [MapTypeToTable], [MapFieldToColumn] and [ConfigureJoin]. *)
Definition MapTypeToTable (c : SQLConverter) (typeName tableName : string)
  : SQLConverter :=
  mkConverter (schema c) (dialect c) (marshaler c)
    (map_set typeName tableName (tableMap c)) (columnMap c) (joinConfig c).

Definition MapFieldToColumn (c : SQLConverter)
  (typeName fieldName columnName : string) : SQLConverter :=
  let cols :=
    match lookup typeName (columnMap c) with
    | Some cols => cols
    | None => []
    end in
  mkConverter (schema c) (dialect c) (marshaler c) (tableMap c)
    (map_set typeName (map_set fieldName columnName cols) (columnMap c))
    (joinConfig c).

Definition ConfigureJoin (c : SQLConverter) (typeName fieldName : string)
  (config : JoinConfig) : SQLConverter :=
  mkConverter (schema c) (dialect c) (marshaler c) (tableMap c) (columnMap c)
    (map_set (typeName ++ "." ++ fieldName) config (joinConfig c)).

(** The loop of [ConvertToInsert] over the input: one quoted column and one
    placeholder per entry. *)
Fixpoint insert_loop (c : SQLConverter) (typeName : string)
  (input : list (string * Value)) (columns values : list string)
  (m : PostgreSQLMarshaler)
  : list string * list string * PostgreSQLMarshaler :=
  match input with
  | [] => (columns, values, m)
  | (field, value) :: rest =>
      let '(placeholder, m') := MarshalValue m value in
      insert_loop c typeName rest
        (columns ++ [dQuoteIdentifier (dialect c)
                       (getColumnName c typeName field)])
        (values ++ [placeholder]) m'
  end.

Definition ConvertToInsert (c : SQLConverter) (typeName : string)
  (input : list (string * Value)) (returning : list string)
  : outcome SQLMutationResult :=
  let m := Reset (marshaler c) in
  let tableName := getTableName c typeName in
  let '(columns, values, m) := insert_loop c typeName input [] [] m in
  let returningCols := returning_columns c typeName returning in
  match dialect c with
  | PostgreSQL =>
      let opts :=
        mkInsert (QuoteIdentifier tableName) columns [values] None
                 returningCols in
      query <- BuildInsert opts ;;
      Ok (mkMutationResult query (Params m) "INSERT")
  | OtherDialect _ =>
      Err "dialect does not support PostgreSQL INSERT building"
  end.

End Convert.

(** ** Package graph: the field collector *)

Module Collector.

(** The document syntax the collector reads (gqlparser's [ast] package). *)
Inductive ValueKind : Type :=
| VariableValue | IntValue | FloatValue | StringValue | BlockValue
| BooleanValue | NullValue | EnumValue | ListValue | ObjectValue.

(** [ast.Value]; a child carries its name and a value pointer. *)
Inductive AstValue : Type :=
| mkAstValue (Kind : ValueKind) (Raw : string)
             (Children : list (string * option AstValue)).

Record Argument : Type := mkArgument {
  ArgName : string;
  ArgValue : option AstValue
}.

Record Directive : Type := mkAstDirective {
  DirName : string;
  DirArguments : list Argument
}.

(** [ast.Selection]: a field, a fragment spread or an inline fragment.  The
    selection set of a field is nil when the field has no braces. *)
Inductive Selection : Type :=
| SField (alias name : string) (args : list Argument)
         (dirs : list Directive) (selectionSet : option (list Selection))
| SFragmentSpread (name : string) (dirs : list Directive)
| SInlineFragment (typeCondition : string) (dirs : list Directive)
                  (selectionSet : list Selection).

Record FragmentDefinition : Type := mkFragment {
  TypeCondition : string;
  FSelectionSet : list Selection
}.

(** [FieldCollector]. *)
Record FieldCollector : Type := mkCollector {
  cschema : Schema;
  fragments : list (string * FragmentDefinition);
  variables : option (list (string * Value))
}.

Definition wrap64 (z : Z) : Z :=
  ((z + 2 ^ 63) mod 2 ^ 64 - 2 ^ 63)%Z.

Definition is_digit (c : ascii) : bool :=
  let n := nat_of_ascii c in (48 <=? n)%nat && (n <=? 57)%nat.

(** The digit loop of [parseValue] for an [*int64] destination: it stops at
    the first byte that is neither a digit nor a minus sign at index 0. *)
Fixpoint parse_digits (i : nat) (s : string) (val : Z) : Z :=
  match s with
  | EmptyString => val
  | String c rest =>
      if is_digit c then
        parse_digits (S i) rest
          (wrap64 (val * 10 + Z.of_nat (nat_of_ascii c - 48)))
      else if (i =? 0)%nat && Ascii.eqb c "-"%char then
        parse_digits (S i) rest val
      else val
  end.

Definition parseInt64 (s : string) : Z :=
  let val := parse_digits 0 s 0 in
  match s with
  | String "-"%char _ => wrap64 (- val)
  | _ => val
  end.

(** The float64 a literal denotes, kept as the literal's text. *)
Definition parseFloat64 (s : string) : Value := VFloat s.

(** [evaluateValue]. An object literal fills a map, entry by entry; the
    entries are listed in the order of the literal. *)
Fixpoint evalValue (vars : option (list (string * Value))) (v : AstValue)
  : Value :=
  match v with
  | mkAstValue kind raw children =>
      match kind with
      | VariableValue =>
          match vars with
          | Some vs =>
              match lookup raw vs with Some x => x | None => VNil end
          | None => VNil
          end
      | IntValue => VInt (parseInt64 raw)
      | FloatValue => parseFloat64 raw
      | StringValue | BlockValue | EnumValue => VStr raw
      | BooleanValue => VBool (String.eqb raw "true")
      | NullValue => VNil
      | ListValue =>
          VList
            ((fix items (cs : list (string * option AstValue)) : list Value :=
                match cs with
                | [] => []
                | (_, Some c) :: rest => evalValue vars c :: items rest
                | (_, None) :: rest => VNil :: items rest
                end) children)
      | ObjectValue =>
          VMap
            ((fix fill (cs : list (string * option AstValue))
                 (acc : list (string * Value)) : list (string * Value) :=
                match cs with
                | [] => acc
                | (n, Some c) :: rest =>
                    fill rest (map_set n (evalValue vars c) acc)
                | (n, None) :: rest => fill rest (map_set n VNil acc)
                end) children [])
      end
  end.

Definition evaluateValue (fc : FieldCollector) (value : option AstValue)
  : Value :=
  match value with
  | None => VNil
  | Some v => evalValue (variables fc) v
  end.

(** [dir.Arguments.ForName]. *)
Fixpoint ForName (args : list Argument) (name : string) : option Argument :=
  match args with
  | [] => None
  | a :: rest => if String.eqb (ArgName a) name then Some a else ForName rest name
  end.

Fixpoint shouldInclude (fc : FieldCollector) (directives : list Directive)
  : bool :=
  match directives with
  | [] => true
  | dir :: rest =>
      let skipped :=
        if String.eqb (DirName dir) "skip" then
          match ForName (DirArguments dir) "if" with
          | Some arg =>
              match evaluateValue fc (ArgValue arg) with
              | VBool true => true
              | _ => false
              end
          | None => false
          end
        else if String.eqb (DirName dir) "include" then
          match ForName (DirArguments dir) "if" with
          | Some arg =>
              match evaluateValue fc (ArgValue arg) with
              | VBool false => true
              | _ => false
              end
          | None => false
          end
        else false in
      if skipped then false else shouldInclude fc rest
  end.

Definition collectArguments (fc : FieldCollector) (args : list Argument)
  : list (string * Value) :=
  fold_left (fun result arg =>
               map_set (ArgName arg) (evaluateValue fc (ArgValue arg)) result)
            args [].

Definition collectDirectives (fc : FieldCollector) (dirs : list Directive)
  : list DirectiveInstance :=
  map (fun dir => mkDirective (DirName dir)
                    (collectArguments fc (DirArguments dir)))
      (filter (fun dir => negb (String.eqb (DirName dir) "skip"
                                || String.eqb (DirName dir) "include"))
              dirs).

Definition getFieldTypeName (s : Schema) (parentType fieldName : string)
  : string :=
  match GetType s parentType with
  | None => ""
  | Some objType =>
      match lookup fieldName (OFields objType) with
      | None => ""
      | Some field => unwrapTypeName (FType field)
      end
  end.

Definition typeApplies (fc : FieldCollector) (fragmentType runtimeType : string)
  : bool :=
  if String.eqb fragmentType runtimeType then true
  else
    match GetType (cschema fc) runtimeType with
    | Some objType => existsb (fun impl => String.eqb impl fragmentType)
                              (Implements objType)
    | None => false
    end.

(** What one [CollectFields] call accumulates: the [fieldMap], in insertion
    order, and the [Typename] flag of the result. *)
Record cstate : Type := mkCState {
  fieldMap : list (string * SelectedField);
  typename : bool
}.

(** The end of [CollectFields]: the range over [fieldMap] appends every field
    to the result, in the order [ord] in which the range visits the map. *)
Definition finish (ord : range_order SelectedField) (st : cstate)
  : SelectionSet :=
  mkSelectionSet (map snd (ord (fieldMap st))) (typename st).

(** [CollectFields] over a given [collectFieldsImpl]; the outer [option] is
    [None] when the recursion budget is used up. *)
Definition collect_with (ord : range_order SelectedField)
  (impl : list Selection -> string -> cstate -> option cstate)
  (selectionSet : option (list Selection)) (parentType : string)
  : option (option SelectionSet) :=
  match selectionSet with
  | None => Some None
  | Some sels =>
      match impl sels parentType (mkCState [] false) with
      | Some st => Some (Some (finish ord st))
      | None => None
      end
  end.

(** The merge arm of [collectFieldsImpl]: the nested fields of the new
    occurrence are appended to those of the existing field. *)
Definition merge_into (existing : SelectedField)
  (nestedFields : option SelectionSet) : SelectedField :=
  let 'mkField n a args sels dirs := existing in
  let base :=
    match sels with
    | Some s => s
    | None => mkSelectionSet [] false
    end in
  mkField n a args
    (Some (mkSelectionSet (Fields base ++ fields_of nestedFields)
                          (Typename base)))
    dirs.

(** [collectFieldsImpl]. Fragment spreads make the recursion follow the
    fragment table, so it runs on a budget [fuel] of nested calls. *)
Fixpoint collectFieldsImpl (ord : range_order SelectedField)
  (fc : FieldCollector) (fuel : nat) (selectionSet : list Selection)
  (parentType : string) (st : cstate) {struct fuel} : option cstate :=
  match fuel with
  | O => None
  | S fuel' =>
      let CollectFields := collect_with ord (collectFieldsImpl ord fc fuel') in
      (fix each (sels : list Selection) (st : cstate) : option cstate :=
         match sels with
         | [] => Some st
         | SField alias name args dirs selSet :: rest =>
             if negb (shouldInclude fc dirs) then each rest st
             else if String.eqb name "__typename" then
               each rest (mkCState (fieldMap st) true)
             else
               let responseKey :=
                 if String.eqb alias "" then name else alias in
               match lookup responseKey (fieldMap st) with
               | Some existing =>
                   match selSet with
                   | Some _ =>
                       match CollectFields selSet
                               (getFieldTypeName (cschema fc) parentType name)
                       with
                       | Some nestedFields =>
                           each rest
                             (mkCState
                                (map_set responseKey
                                   (merge_into existing nestedFields)
                                   (fieldMap st))
                                (typename st))
                       | None => None
                       end
                   | None => each rest st
                   end
               | None =>
                   match CollectFields selSet
                           (getFieldTypeName (cschema fc) parentType name)
                   with
                   | Some nested =>
                       each rest
                         (mkCState
                            (map_set responseKey
                               (mkField name alias (collectArguments fc args)
                                  nested (collectDirectives fc dirs))
                               (fieldMap st))
                            (typename st))
                   | None => None
                   end
               end
         | SFragmentSpread name dirs :: rest =>
             if negb (shouldInclude fc dirs) then each rest st
             else
               match lookup name (fragments fc) with
               | None => each rest st
               | Some fragment =>
                   if negb (typeApplies fc (TypeCondition fragment) parentType)
                   then each rest st
                   else
                     match collectFieldsImpl ord fc fuel'
                             (FSelectionSet fragment) parentType st with
                     | Some st' => each rest st'
                     | None => None
                     end
               end
         | SInlineFragment typeCondition dirs selSet :: rest =>
             if negb (shouldInclude fc dirs) then each rest st
             else if negb (String.eqb typeCondition "")
                     && negb (typeApplies fc typeCondition parentType)
             then each rest st
             else
               match collectFieldsImpl ord fc fuel' selSet parentType st with
               | Some st' => each rest st'
               | None => None
               end
         end) selectionSet st
  end.

Definition CollectFields (ord : range_order SelectedField)
  (fc : FieldCollector) (fuel : nat)
  (selectionSet : option (list Selection)) (parentType : string)
  : option (option SelectionSet) :=
  collect_with ord (collectFieldsImpl ord fc fuel) selectionSet parentType.

(** The response keys of a selection set, in order. *)
Definition response_keys (s : SelectionSet) : list string :=
  map GetName (Fields s).

End Collector.

(** ** Package graph: the executor *)

Module Executor.

(** An element of a response path: a response key or a list index ([PNil]
    is the zero value of an unused array slot). *)
Inductive PathElem : Type :=
| PNil
| PKey (key : string)
| PIdx (i : Z).

(** A [[]interface{}] slice value: the array it points into, its length and
    its capacity.  Paths are only ever extended by [append], so every slice
    starts at the first slot of its array. *)
Record slice : Type := mkSlice {
  ptr : nat;
  len : nat;
  cap : nat
}.

Definition nil_slice : slice := mkSlice 0 0 0.

(** The arrays allocated so far, by address. *)
Definition heap : Type := list (list PathElem).

Fixpoint update {A : Type} (i : nat) (x : A) (l : list A) : list A :=
  match l, i with
  | [], _ => []
  | _ :: rest, O => x :: rest
  | y :: rest, S i' => y :: update i' x rest
  end.

Definition array_at (h : heap) (p : nat) : list PathElem := nth p h [].

(** The elements a slice shows. *)
Definition read (h : heap) (s : slice) : list PathElem :=
  firstn (len s) (array_at h (ptr s)).

(** The capacity [append] allocates when one more element does not fit
    (the runtime's [growslice] for slices of fewer than 256 elements, whose
    sizes are exact allocation classes for 16-byte elements): the old
    capacity doubled, or the needed length if that is larger. *)
Definition growcap (oldCap newLen : nat) : nat :=
  if (oldCap + oldCap <? newLen)%nat then newLen else (oldCap + oldCap)%nat.

(** [append(s, x)]: when the capacity suffices the element is written into
    the array [s] points to, which every other slice of that array sees;
    otherwise the shown elements are copied into a new array. *)
Definition append (h : heap) (s : slice) (x : PathElem) : slice * heap :=
  if (len s <? cap s)%nat then
    (mkSlice (ptr s) (S (len s)) (cap s),
     update (ptr s) (update (len s) x (array_at h (ptr s))) h)
  else
    let newCap := growcap (cap s) (S (len s)) in
    (mkSlice (length h) (S (len s)) newCap,
     (h ++ [read h s ++ [x] ++ repeat PNil (newCap - S (len s))])%list).

(** The values resolvers return and the executor assembles: nil, a scalar,
    a slice or array, and a map or struct given by its named members. *)
Inductive GoVal : Type :=
| GNil
| GScalar (text : string)
| GList (items : list GoVal)
| GMap (entries : list (string * GoVal)).

(** [Error] as the executor records it: the message and the path slice. *)
Record Error : Type := mkError {
  Message : string;
  Path : slice
}.

(** The mutable part of a request: the arrays behind the paths and
    [RequestContext.Errors]. *)
Record estate : Type := mkEState {
  arrays : heap;
  Errors : list Error
}.

Definition AddError (st : estate) (err : Error) : estate :=
  mkEState (arrays st) (Errors st ++ [err]).

(** The errors of the response, each path read when the response is built. *)
Definition response_errors (st : estate) : list (string * list PathElem) :=
  map (fun e => (Message e, read (arrays st) (Path e))) (Errors st).

(** [defaultResolve] on the parent value: a member of a map by the field
    name, nil for everything else.  It returns no error. *)
Definition defaultResolve (parent : GoVal) (fieldName : string) : GoVal :=
  match parent with
  | GMap entries =>
      match lookup fieldName entries with
      | Some v => v
      | None => GNil
      end
  | _ => GNil
  end.

Section Execution.

(** The executor's schema, its resolver map (each resolver with its
    middleware applied) and the two introspection entry points.  A call
    returns a value ([inl]) or an error ([inr]).  The request context is
    the one [Execute] installs, so it is never nil. *)
Variable schema : Schema.
Variable resolvers :
  string -> string -> option (list (string * Value) -> GoVal + string).
Variable introspectSchema : SelectedField -> GoVal + string.
Variable introspectType : SelectedField -> string -> GoVal + string.

(** The loop of [executeSelectionSet] over the fields, given [executeField];
    a nil selection pointer or an empty field list gives the nil map. *)
Definition selection_loop
  (execField : SelectedField -> string -> GoVal -> slice -> estate ->
               (GoVal + string) * estate)
  (selections : option SelectionSet) (parentType : string)
  (parentValue : GoVal) (path : slice) (st : estate)
  : option (list (string * GoVal)) * estate :=
  match selections with
  | None => (None, st)
  | Some sel =>
      match Fields sel with
      | [] => (None, st)
      | _ =>
          let '(result, st) :=
            (fix each (fs : list SelectedField)
                 (result : list (string * GoVal)) (st : estate)
               : list (string * GoVal) * estate :=
               match fs with
               | [] => (result, st)
               | field :: rest =>
                   let '(fieldPath, h) :=
                     append (arrays st) path (PKey (GetName field)) in
                   let st := mkEState h (Errors st) in
                   match execField field parentType parentValue fieldPath st
                   with
                   | (inr err, st) =>
                       each rest (map_set (GetName field) GNil result)
                            (AddError st (mkError err fieldPath))
                   | (inl value, st) =>
                       each rest (map_set (GetName field) value result) st
                   end
               end) (Fields sel) [] st in
          (Some (if Typename sel
                 then map_set "__typename" (GScalar parentType) result
                 else result), st)
      end
  end.

(** [executeField], with [completeValue] and [completeListValue] as the
    inner recursion on the resolved value.  [executeSelectionSet] returns a
    nil error always, so the object arm of [completeValue] never fails. *)
Fixpoint executeField (field : SelectedField) (parentType : string)
  (parentValue : GoVal) (path : slice) (st : estate) {struct field}
  : (GoVal + string) * estate :=
  match field with
  | mkField name alias args sels dirs =>
      let fix completeValue (value : GoVal) (path : slice) (st : estate)
            {struct value} : (GoVal + string) * estate :=
        match value with
        | GNil => (inl GNil, st)
        | GList items =>
            (fix completeListValue (xs : list GoVal) (i : Z)
                 (result : list GoVal) (st : estate)
               : (GoVal + string) * estate :=
               match xs with
               | [] => (inl (GList result), st)
               | item :: rest =>
                   let '(itemPath, h) := append (arrays st) path (PIdx i) in
                   match completeValue item itemPath (mkEState h (Errors st))
                   with
                   | (inr err, st) => (inr err, st)
                   | (inl completed, st) =>
                       completeListValue rest (i + 1)%Z
                         (result ++ [completed])%list st
                   end
               end) items 0%Z [] st
        | GMap _ =>
            if HasSelection (mkField name alias args sels dirs) then
              let fieldType :=
                Collector.getFieldTypeName schema parentType name in
              match selection_loop executeField sels fieldType value path st
              with
              | (Some m, st) => (inl (GMap m), st)
              | (None, st) => (inl GNil, st)
              end
            else (inl value, st)
        | GScalar _ => (inl value, st)
        end in
      if String.eqb name "__schema" then (introspectSchema field, st)
      else if String.eqb name "__type" then
        (introspectType field
           match lookup "name" args with
           | Some (VStr typeName) => typeName
           | _ => ""
           end, st)
      else if String.eqb name "__typename" then (inl (GScalar parentType), st)
      else
        let resolved :=
          match resolvers parentType name with
          | Some resolver => resolver args
          | None => inl (defaultResolve parentValue name)
          end in
        match resolved with
        | inr err => (inr err, st)
        | inl value => completeValue value path st
        end
  end.

Definition executeSelectionSet (selections : option SelectionSet)
  (parentType : string) (parentValue : GoVal) (path : slice) (st : estate)
  : option (list (string * GoVal)) * estate :=
  selection_loop executeField selections parentType parentValue path st.

End Execution.


(** The field loop of [executeSelectionSet] on its own, from given entries
    of the result map. *)
Fixpoint fields_loop
  (execField : SelectedField -> string -> GoVal -> slice -> estate ->
               (GoVal + string) * estate)
  (parentType : string) (parentValue : GoVal) (path : slice)
  (fs : list SelectedField) (result : list (string * GoVal)) (st : estate)
  : list (string * GoVal) * estate :=
  match fs with
  | [] => (result, st)
  | field :: rest =>
      let '(fieldPath, h) :=
        append (arrays st) path (PKey (GetName field)) in
      let st := mkEState h (Errors st) in
      match execField field parentType parentValue fieldPath st with
      | (inr err, st) =>
          fields_loop execField parentType parentValue path rest
            (map_set (GetName field) GNil result)
            (AddError st (mkError err fieldPath))
      | (inl value, st) =>
          fields_loop execField parentType parentValue path rest
            (map_set (GetName field) value result) st
      end
  end.

(** [ResolverFunc] and [MiddlewareFunc], without the context argument. *)
Definition ResolverFunc : Type := list (string * Value) -> GoVal + string.
Definition MiddlewareFunc : Type := ResolverFunc -> ResolverFunc.

(** [FieldResolver] and [ResolverMap]. *)
Record FieldResolver : Type := mkFieldResolver {
  RTypeName : string;
  RFieldName : string;
  ResolverFn : ResolverFunc;
  Middleware : list MiddlewareFunc
}.

Record ResolverMap : Type := mkResolverMap {
  resolvers : list (string * list (string * FieldResolver))
}.

Definition NewResolverMap : ResolverMap := mkResolverMap [].

Definition RegisterWithMiddleware (rm : ResolverMap)
  (typeName fieldName : string) (resolver : ResolverFunc)
  (middleware : list MiddlewareFunc) : ResolverMap :=
  let typeResolvers :=
    match lookup typeName (resolvers rm) with
    | Some rs => rs
    | None => []
    end in
  mkResolverMap
    (map_set typeName
       (map_set fieldName
          (mkFieldResolver typeName fieldName resolver middleware)
          typeResolvers)
       (resolvers rm)).

Definition Register (rm : ResolverMap) (typeName fieldName : string)
  (resolver : ResolverFunc) : ResolverMap :=
  RegisterWithMiddleware rm typeName fieldName resolver [].

Definition Get (rm : ResolverMap) (typeName fieldName : string)
  : option FieldResolver :=
  match lookup typeName (resolvers rm) with
  | None => None
  | Some typeResolvers => lookup fieldName typeResolvers
  end.

Definition HasType (rm : ResolverMap) (typeName : string) : bool :=
  match lookup typeName (resolvers rm) with
  | Some _ => true
  | None => false
  end.

(** [ResolveWithMiddleware]: the loop runs from the last middleware to the
    first, each wrapping the resolver built so far. *)
Fixpoint wrap_from_last (reversed : list MiddlewareFunc)
  (resolver : ResolverFunc) : ResolverFunc :=
  match reversed with
  | [] => resolver
  | mw :: rest => wrap_from_last rest (fun args => mw resolver args)
  end.

Definition ResolveWithMiddleware (fr : FieldResolver) : ResolverFunc :=
  wrap_from_last (rev (Middleware fr)) (ResolverFn fr).

Definition Resolve (fr : FieldResolver) (args : list (string * Value))
  : GoVal + string :=
  ResolveWithMiddleware fr args.

(** The operations of a parsed document, by name. *)
Record OperationDefinition : Type := mkOperation {
  OpName : string;
  OpSelectionSet : option (list Collector.Selection)
}.

Inductive FindError : Type :=
| NoOperations
| NameRequired
| NotFound (operationName : string).

Fixpoint first_named (ops : list OperationDefinition) (operationName : string)
  : option OperationDefinition :=
  match ops with
  | [] => None
  | op :: rest =>
      if String.eqb (OpName op) operationName then Some op
      else first_named rest operationName
  end.

(** [findOperation]; the three errors it can return are told apart by
    constructor. *)
Definition findOperation (ops : list OperationDefinition)
  (operationName : string) : OperationDefinition + FindError :=
  match ops with
  | [] => inr NoOperations
  | _ =>
      if String.eqb operationName "" then
        match ops with
        | [op] => inl op
        | _ => inr NameRequired
        end
      else
        match first_named ops operationName with
        | Some op => inl op
        | None => inr (NotFound operationName)
        end
  end.

(** [string(b)] for a byte [b]: the UTF-8 encoding of the code point. *)
Definition string_of_byte (b : nat) : string :=
  if (b <? 128)%nat then String (ascii_of_nat b) EmptyString
  else String (ascii_of_nat (192 + b / 64))
         (String (ascii_of_nat (128 + b mod 64)) EmptyString).

(** [capitalize]: the first byte minus 32, in byte arithmetic. *)
Definition capitalize (s : string) : string :=
  match s with
  | EmptyString => ""
  | String c rest =>
      string_of_byte ((nat_of_ascii c + 256 - 32) mod 256) ++ rest
  end.

(** [toStringPath]. *)
Definition toStringPath (path : list PathElem) : list string :=
  map (fun p => match p with
                | PNil => "<nil>"
                | PKey key => key
                | PIdx i => itoa i
                end) path.

End Executor.

(** ** Package graph: type references built from the schema document *)

Module SchemaBuild.

(** [ast.Type] of the schema parser: a named type, or a list of an element
    type, either of them possibly non-null. *)
Inductive AstType : Type :=
| mkAstType (NamedType : string) (Elem : option AstType) (NonNull : bool).

Fixpoint convertRef (t : AstType) : TypeRef :=
  match t with
  | mkAstType namedType elem nonNull =>
      match elem with
      | Some e => mkTypeRef "" nonNull true (Some (convertRef e))
      | None => mkTypeRef namedType nonNull false None
      end
  end.

(** [convertTypeRef]. *)
Definition convertTypeRef (t : option AstType) : option TypeRef :=
  match t with
  | None => None
  | Some ty => Some (convertRef ty)
  end.

End SchemaBuild.

(** ** Package graph: the request context, and package extensions *)

Module Extensions.

(** [graph.Error], with the members the extensions fill. *)
Record Error : Type := mkError {
  Message : string;
  ErrExtensions : list (string * Value)
}.

(** The part of [RequestContext] the extensions read and write. *)
Record RequestContext : Type := mkRequestContext {
  Query : string;
  Errors : list Error;
  Extensions : list (string * Value);
  values : list (string * Value)
}.

Definition Set_ (rc : RequestContext) (key : string) (value : Value)
  : RequestContext :=
  mkRequestContext (Query rc) (Errors rc) (Extensions rc)
    (map_set key value (values rc)).

Definition Get (rc : RequestContext) (key : string) : option Value :=
  lookup key (values rc).

Definition AddError (rc : RequestContext) (err : Error) : RequestContext :=
  mkRequestContext (Query rc) (Errors rc ++ [err]) (Extensions rc)
    (values rc).

Definition HasErrors (rc : RequestContext) : bool :=
  (0 <? length (Errors rc))%nat.

(** [ComplexityLimit]; the custom complexity function is never called. *)
Record ComplexityLimit : Type := mkComplexityLimit {
  limit : Z;
  defaultCost : Z;
  fieldCosts : list (string * Z)
}.

Definition NewComplexityLimit (limit : Z) : ComplexityLimit :=
  mkComplexityLimit limit 1 [].

Definition CalculateComplexity (c : ComplexityLimit) (query : string) : Z :=
  0.

(** [ComplexityLimit.InterceptOperation] on the request context of the
    call, which may be nil. *)
Definition ComplexityInterceptOperation (c : ComplexityLimit)
  (rc : option RequestContext) : option RequestContext :=
  match rc with
  | None => None
  | Some rc =>
      let complexity := CalculateComplexity c (Query rc) in
      let rc :=
        if (0 <? limit c)%Z && (limit c <? complexity)%Z then
          AddError rc
            (mkError "query complexity exceeds limit"
               [("code", VStr "COMPLEXITY_LIMIT_EXCEEDED");
                ("complexity", VInt complexity);
                ("limit", VInt (limit c))])
        else rc in
      Some (Set_ rc "complexity" (VInt complexity))
  end.

Definition containsIntrospection (query : string) : bool := false.

(** [IntrospectionDisabler.InterceptOperation]. *)
Definition IntrospectionInterceptOperation (rc : option RequestContext)
  : option RequestContext :=
  match rc with
  | None => None
  | Some rc =>
      if containsIntrospection (Query rc) then
        Some (AddError rc
                (mkError "introspection is disabled"
                   [("code", VStr "INTROSPECTION_DISABLED")]))
      else Some rc
  end.

(** [APQ]: the cache of persisted queries, by hash. *)
Record APQ : Type := mkAPQ {
  cache : list (string * string)
}.

Definition NewAPQ : APQ := mkAPQ [].

(** [APQ.InterceptOperation]: the cache and the request context after the
    call. *)
Definition APQInterceptOperation (a : APQ) (rc : option RequestContext)
  : APQ * option RequestContext :=
  match rc with
  | None => (a, None)
  | Some rc =>
      match lookup "persistedQuery" (Extensions rc) with
      | Some (VMap ext) =>
          match lookup "sha256Hash" ext with
          | Some (VStr hash) =>
              if String.eqb (Query rc) "" then
                match lookup hash (cache a) with
                | Some cached =>
                    (a, Some (mkRequestContext cached (Errors rc)
                                (Extensions rc) (values rc)))
                | None =>
                    (a, Some (AddError rc
                                (mkError "PersistedQueryNotFound"
                                   [("code",
                                     VStr "PERSISTED_QUERY_NOT_FOUND")])))
                end
              else (mkAPQ (map_set hash (Query rc) (cache a)), Some rc)
          | _ => (a, Some rc)
          end
      | _ => (a, Some rc)
      end
  end.

End Extensions.

(** * Notions used in the properties *)

Import Marshal.

Definition non_nil (v : Value) : Prop := v <> VNil.

(** *** Operands of a filter

    [mask_filter] replaces every operand of a filter object that is not nil
    by one fixed value and leaves the shape of the filter (keys, operators,
    nesting, nil operands) as it is.  The operand of an is_null operator is
    left alone: it is the operand that chooses between IS NULL and
    IS NOT NULL. *)













(** Two builder states that hold the same clauses and have issued the same
    number of placeholders. *)
Definition same_text (st1 st2 : Convert.wstate) : Prop :=
  fst st1 = fst st2
  /\ placeholderCounter (snd st1) = placeholderCounter (snd st2).

(** The size of a value, for induction on nested filters. *)
Fixpoint vsize (v : Value) : nat :=
  match v with
  | VList items =>
      S ((fix sum (l : list Value) : nat :=
            match l with
            | [] => 0
            | x :: rest => vsize x + sum rest
            end) items)
  | VMap entries =>
      S ((fix sum (l : list (string * Value)) : nat :=
            match l with
            | [] => 0
            | (_, x) :: rest => vsize x + sum rest
            end) entries)
  | _ => 1
  end.


(** *** Reading a quoted literal

    How a SQL lexer reads a quoted string or identifier (standard
    conforming strings: no backslash escapes): after the opening quote,
    a doubled quote stands for one quote and a single quote ends the
    literal.  The result is the text of the literal and what follows it. *)

Fixpoint read_body (q : ascii) (text : string) : option (string * string) :=
  match text with
  | EmptyString => None
  | String c rest =>
      if Ascii.eqb c q then
        match rest with
        | String c2 rest2 =>
            if Ascii.eqb c2 q then
              match read_body q rest2 with
              | Some (s, tail) => Some (String q s, tail)
              | None => None
              end
            else Some (EmptyString, rest)
        | EmptyString => Some (EmptyString, EmptyString)
        end
      else
        match read_body q rest with
        | Some (s, tail) => Some (String c s, tail)
        | None => None
        end
  end.

Definition read_quoted (q : ascii) (text : string)
  : option (string * string) :=
  match text with
  | String c rest => if Ascii.eqb c q then read_body q rest else None
  | EmptyString => None
  end.

Definition begins_with (q : ascii) (text : string) : bool :=
  match text with
  | String c _ => Ascii.eqb c q
  | EmptyString => false
  end.


(** *** Placeholders and parameters of a marshaler

    A marshaler is aligned when the number of placeholders it has issued
    is the number of parameters it holds; it extends another one when it
    holds the other's parameters, in order, before its own. *)

Definition aligned (m : PostgreSQLMarshaler) : Prop :=
  placeholderCounter m = Z.of_nat (length (params m)).

Definition extends (m0 m : PostgreSQLMarshaler) : Prop :=
  exists added, params m = (params m0 ++ added)%list.

(** *** Filter operators

    The operator names a filter may use, each with the text written before
    and after the placeholder of its operand. *)

Definition operator_table : list (string * string * string) :=
  [("_eq", " = ", ""); ("eq", " = ", "");
   ("_neq", " <> ", ""); ("neq", " <> ", "");
   ("_ne", " <> ", ""); ("ne", " <> ", "");
   ("_gt", " > ", ""); ("gt", " > ", "");
   ("_gte", " >= ", ""); ("gte", " >= ", "");
   ("_ge", " >= ", ""); ("ge", " >= ", "");
   ("_lt", " < ", ""); ("lt", " < ", "");
   ("_lte", " <= ", ""); ("lte", " <= ", "");
   ("_le", " <= ", ""); ("le", " <= ", "");
   ("_like", " LIKE ", ""); ("like", " LIKE ", "");
   ("_ilike", " ILIKE ", ""); ("ilike", " ILIKE ", "");
   ("_in", " = ANY(", ")"); ("in", " = ANY(", ")");
   ("_nin", " <> ALL(", ")"); ("nin", " <> ALL(", ")");
   ("_not_in", " <> ALL(", ")"); ("not_in", " <> ALL(", ")");
   ("_contains", " @> ", ""); ("contains", " @> ", "");
   ("_contained_by", " <@ ", ""); ("contained_by", " <@ ", "");
   ("containedBy", " <@ ", "")].


(** *** Collected fields

    The entries of a [fieldMap] are keyed when the keys are pairwise
    distinct, every field is stored under its response key, and no field
    is named [__typename]. *)

Definition keyed (fm : list (string * SelectedField)) : Prop :=
  NoDup (map fst fm)
  /\ Forall (fun kv => GetName (snd kv) = fst kv
                       /\ Name (snd kv) <> "__typename") fm.

(** The directives a selection carries. *)
Definition directives_of (sel : Collector.Selection)
  : list Collector.Directive :=
  match sel with
  | Collector.SField _ _ _ dirs _ => dirs
  | Collector.SFragmentSpread _ dirs => dirs
  | Collector.SInlineFragment _ dirs _ => dirs
  end.

(** A directive that excludes its selection: [skip] whose [if] argument
    evaluates to true, or [include] whose [if] argument evaluates to
    false. *)
Definition excludes (fc : Collector.FieldCollector)
  (dir : Collector.Directive) : bool :=
  match Collector.ForName (Collector.DirArguments dir) "if" with
  | Some arg =>
      match Collector.evaluateValue fc (Collector.ArgValue arg) with
      | VBool true => String.eqb (Collector.DirName dir) "skip"
      | VBool false => String.eqb (Collector.DirName dir) "include"
      | _ => false
      end
  | None => false
  end.

(** The number a sequence of decimal digits denotes, after the digits
    already read. *)
Fixpoint digits_value (d : Decimal.uint) (acc : Z) : Z :=
  match d with
  | Decimal.Nil => acc
  | Decimal.D0 d => digits_value d (acc * 10 + 0)
  | Decimal.D1 d => digits_value d (acc * 10 + 1)
  | Decimal.D2 d => digits_value d (acc * 10 + 2)
  | Decimal.D3 d => digits_value d (acc * 10 + 3)
  | Decimal.D4 d => digits_value d (acc * 10 + 4)
  | Decimal.D5 d => digits_value d (acc * 10 + 5)
  | Decimal.D6 d => digits_value d (acc * 10 + 6)
  | Decimal.D7 d => digits_value d (acc * 10 + 7)
  | Decimal.D8 d => digits_value d (acc * 10 + 8)
  | Decimal.D9 d => digits_value d (acc * 10 + 9)
  end.

(** The name at the end of the element chain of a schema type. *)
Fixpoint innermost (t : SchemaBuild.AstType) : string :=
  match t with
  | SchemaBuild.mkAstType namedType (Some e) _ => innermost e
  | SchemaBuild.mkAstType namedType None _ => namedType
  end.

(** *** Execution state

    The size of a selected field and of a resolved value, for induction on
    nested selections and nested lists. *)
Fixpoint fsize (f : SelectedField) : nat :=
  match f with
  | mkField _ _ _ sels _ =>
      S (match sels with
         | None => 0
         | Some (mkSelectionSet fs _) =>
             (fix sum (l : list SelectedField) : nat :=
                match l with
                | [] => 0
                | x :: rest => fsize x + sum rest
                end) fs
         end)
  end.

Fixpoint gsize (v : Executor.GoVal) : nat :=
  match v with
  | Executor.GList items =>
      S ((fix sum (l : list Executor.GoVal) : nat :=
            match l with
            | [] => 0
            | x :: rest => gsize x + sum rest
            end) items)
  | _ => 1
  end.

(** The errors of [st'] are those of [st], in their order, followed by new
    ones, and no array of [st] is missing in [st']. *)
Definition appends_errors (st st' : Executor.estate) : Prop :=
  (exists added,
     Executor.Errors st' = (Executor.Errors st ++ added)%list)
  /\ (length (Executor.arrays st) <= length (Executor.arrays st'))%nat.

(** No resolver and no introspection entry point returns an error. *)
Definition never_fail
  (resolvers : string -> string ->
               option (list (string * Value) -> Executor.GoVal + string))
  (introspectSchema : SelectedField -> Executor.GoVal + string)
  (introspectType : SelectedField -> string -> Executor.GoVal + string)
  : Prop :=
  (forall parentType name resolver args,
     resolvers parentType name = Some resolver ->
     exists v, resolver args = inl v)
  /\ (forall field, exists v, introspectSchema field = inl v)
  /\ (forall field typeName, exists v, introspectType field typeName = inl v).

(** What a call that started in [st] and returned [r] has kept: the errors
    recorded before it, and all of them when nothing can fail ([nf]). *)
Definition kept {A : Type} (nf : Prop) (st : Executor.estate)
  (r : A * Executor.estate) : Prop :=
  appends_errors st (snd r)
  /\ (nf -> Executor.Errors (snd r) = Executor.Errors st).

Definition kept_value (nf : Prop) (st : Executor.estate)
  (r : (Executor.GoVal + string) * Executor.estate) : Prop :=
  kept nf st r /\ (nf -> exists v, fst r = inl v).

(** *** Inputs used below *)

Module Inputs.
Import Convert Collector Executor.

(** A field without arguments or directives, as the parser builds it (the
    alias of a field that has none is its name). *)
Definition plain (name : string) (sel : option (list Selection)) : Selection :=
  SField name name [] [] sel.

(** The selection [{ a b }]. *)
Definition two_fields : option (list Selection) :=
  Some [plain "a" None; plain "b" None].

Definition no_schema : FieldCollector := mkCollector (mkSchema []) [] None.

(** [{ ...F1 ...F2 }] with both fragments on Query selecting
    [user { name }]. *)
Definition user_name : list Selection :=
  [plain "user" (Some [plain "name" None])].

Definition two_fragments : FieldCollector :=
  mkCollector (mkSchema [])
    [("F1", mkFragment "Query" user_name);
     ("F2", mkFragment "Query" user_name)] None.

Definition two_spreads : option (list Selection) :=
  Some [SFragmentSpread "F1" []; SFragmentSpread "F2" []].

Definition selected (name : string) (sel : option SelectionSet)
  : SelectedField :=
  mkField name name [] sel [].

(** The collected selection [{ a { b { c { x y } } } }]. *)
Definition four_levels : option SelectionSet :=
  Some (mkSelectionSet
    [selected "a" (Some (mkSelectionSet
       [selected "b" (Some (mkSelectionSet
          [selected "c" (Some (mkSelectionSet
             [selected "x" None; selected "y" None] false))] false))]
       false))] false).

(** The resolver of field [x] fails; every other field is read from its
    parent. *)
Definition x_fails (parentType fieldName : string)
  : option (list (string * Value) -> GoVal + string) :=
  if String.eqb fieldName "x" then Some (fun _ => inr "boom") else None.

Definition root_value : GoVal :=
  GMap [("a", GMap [("b", GMap [("c",
          GMap [("x", GScalar "1"); ("y", GScalar "2")])])])].

(** The run of [Execute] on that selection: a nil path and no errors yet. *)
Definition run_four_levels : option (list (string * GoVal)) * estate :=
  executeSelectionSet (mkSchema []) x_fails
    (fun _ => inl GNil) (fun _ _ => inl GNil)
    four_levels "Query" root_value nil_slice (mkEState [] []).

(** A converter for a [User] type stored in table [users], whose [posts]
    relation is configured as a has-many LEFT JOIN. *)
Definition list_of (name : string) : TypeRef :=
  mkTypeRef "" true true (Some (mkTypeRef name true false None)).

Definition users_schema : Schema :=
  mkSchema [("User", mkObjectType
                       [("posts", mkFieldDef (Some (list_of "Post")))] [])].

Definition users_converter : SQLConverter :=
  mkConverter users_schema PostgreSQL NewPostgreSQLMarshaler
    [("User", "users")] []
    [("User.posts", mkJoinConfig "users" "id" "posts" "user_id" JoinLeft
                                 "hasMany")].

Definition users_query (args : list (string * Value)) : ResolveInfo :=
  mkInfo (Some (list_of "User")) args None.

End Inputs.

(** * Properties *)

(** ** The marshaler: placeholders and bound parameters *)

Lemma MarshalValue_non_nil m v :
  non_nil v ->
  MarshalValue m v =
  ("$" ++ itoa (placeholderCounter m + 1),
   mkMarshaler (placeholderCounter m + 1) (params m ++ [v])).
Proof.
  intros Hv. destruct v; try reflexivity. now elim Hv.
Qed.

Lemma marshal_all_non_nil vs :
  forall m,
    Forall non_nil vs ->
    marshal_all m vs =
    (map (fun k => "$" ++ itoa (placeholderCounter m + Z.of_nat k + 1))
         (seq 0 (length vs)),
     mkMarshaler (placeholderCounter m + Z.of_nat (length vs))
                 (params m ++ vs)).
Proof.
  induction vs as [|v vs IH]; intros m Hall.
  - cbn. rewrite Z.add_0_r, app_nil_r. now destruct m.
  - inversion Hall as [|? ? Hv Hvs]; subst.
    cbn [marshal_all]. rewrite (MarshalValue_non_nil m Hv).
    rewrite (IH _ Hvs). cbn [placeholderCounter params length seq map].
    rewrite <- seq_shift, map_map, <- app_assoc. cbn [app].
    f_equal.
    + f_equal.
      * now rewrite Z.add_0_r.
      * apply map_ext. intros k. do 2 f_equal. lia.
    + f_equal. lia.
Qed.




(** ** The where-clause builder and the is_null operator *)

(** C10, as stated, fails for a nil operand: [MarshalValue] answers NULL
    before any parameter is added, so nothing is bound and no placeholder
    number is used. *)
Lemma AddCondition_is_null_nil_binds_nothing :
  AddCondition NewWhereClauseBuilder NewPostgreSQLMarshaler
               "u.deleted_at" "is_null" VNil
  = (mkWhere ["u.deleted_at IS NOT NULL"], NewPostgreSQLMarshaler).
Proof. reflexivity. Qed.

(** C10, amended: for every [AddCondition] call with operator "is_null" and
    a non-nil operand, the operand is appended to the parameter list and a
    placeholder number is used, while the condition added is the column
    followed by IS NULL (operand true) or IS NOT NULL (any other operand),
    with no placeholder in it. *)
Theorem AddCondition_is_null_binds_unused_parameter b m column value :
  non_nil value ->
  let r := AddCondition b m column "is_null" value in
  Params (snd r) = (Params m ++ [value])%list
  /\ placeholderCounter (snd r) = (placeholderCounter m + 1)%Z
  /\ clauses (fst r) =
     app (clauses b)
         [column ++ match value with
                    | VBool true => " IS NULL"
                    | _ => " IS NOT NULL"
                    end].
Proof.
  intros Hv r. subst r. unfold AddCondition.
  rewrite (MarshalValue_non_nil m Hv). cbn [fst snd Params params
    placeholderCounter clauses].
  repeat split.
  unfold condition_text. cbn.
  destruct value as [| [|] | | | | |]; reflexivity.
Qed.

Lemma AddCondition_is_null_binds_unused_parameter_witness :
  let r := AddCondition NewWhereClauseBuilder NewPostgreSQLMarshaler
             "u.deleted_at" "is_null" (VBool true) in
  Params (snd r) = [VBool true]
  /\ placeholderCounter (snd r) = 1%Z
  /\ clauses (fst r) = ["u.deleted_at IS NULL"].
Proof.
  apply (@AddCondition_is_null_binds_unused_parameter NewWhereClauseBuilder
           NewPostgreSQLMarshaler "u.deleted_at" (VBool true)).
  discriminate.
Defined.

(** ** Validation of SELECT options *)

Import Dialect.

(** C5: [Validate] reports a finding when DISTINCT ON and GROUP BY are both
    given and when HAVING is given without GROUP BY; it reports nothing for
    a plain SELECT that sets only WHERE, ORDER BY and LIMIT; and
    [BuildSelect] returns the findings of [Validate] next to the statement
    text it generates, for all options. *)
Theorem Validate_findings_returned_by_BuildSelect :
  (forall tn ta cols d ds js wh g gs hv ob nf lim off fu fuo,
      Validate (mkSelect tn ta cols (d :: ds) js wh (g :: gs) hv ob nf
                         lim off fu fuo) <> [])
  /\ (forall tn ta cols ds js wh h hs ob nf lim off fu fuo,
         Validate (mkSelect tn ta cols ds js wh [] (h :: hs) ob nf
                            lim off fu fuo) <> [])
  /\ (forall tn ta cols wh ob lim,
         Validate (mkSelect tn ta cols [] [] wh [] [] ob None
                            lim "" false []) = [])
  /\ (forall opts,
         BuildSelect opts = (select_text opts, Validate opts)).
Proof.
  split; [|split; [|split]].
  - intros. unfold Validate. cbn. discriminate.
  - intros. unfold Validate.
    cbn [DistinctOn GroupBy Having OrderBy Joins ForUpdate ForUpdateOf
         nonempty negb andb].
    rewrite andb_false_r. cbn [app].
    intros Habs. apply (f_equal (@length _)) in Habs.
    rewrite !length_app in Habs. cbn [length] in Habs. lia.
  - intros. reflexivity.
  - intros. reflexivity.
Qed.

(** ** The table alias: the first byte of the type name *)

Import Convert.

Lemma slice_to_nonempty (s : string) :
  s <> "" -> slice_to s 1 = Ok (substring 0 1 s).
Proof.
  destruct s as [|c rest]; [now intros H; elim H | reflexivity].
Qed.

(** C9: the three conversions take the table alias from [typeName[:1]].
    With a return type that is not nil but unwraps to the empty name,
    [ConvertToSelect] panics on that slice instead of returning an error,
    and so do [ConvertToUpdate] and [ConvertToDelete] on an empty type name;
    for a non-empty type name the slice is defined and [ConvertToUpdate] and
    [ConvertToDelete] return a statement or an error. *)
Theorem table_alias_of_empty_type_name_panics
  (c : SQLConverter) (info : ResolveInfo) (t : TypeRef) :
  ReturnType info = Some t ->
  unwrapTypeName (Some t) = "" ->
  ConvertToSelect c info = Panic "slice bounds out of range"
  /\ (forall ord where_ set returning,
         ConvertToUpdate ord c "" where_ set returning
         = Panic "slice bounds out of range")
  /\ (forall where_ returning,
         ConvertToDelete c "" where_ returning
         = Panic "slice bounds out of range")
  /\ (forall typeName, typeName <> "" ->
         slice_to typeName 1 = Ok (substring 0 1 typeName)
         /\ (forall ord where_ set returning msg,
                ConvertToUpdate ord c typeName where_ set returning
                <> Panic msg)
         /\ (forall where_ returning msg,
                ConvertToDelete c typeName where_ returning <> Panic msg)).
Proof.
  intros Hrt Hname. repeat split.
  - unfold ConvertToSelect. rewrite Hrt, Hname. reflexivity.
  - now apply slice_to_nonempty.
  - intros ord where_ set returning msg. unfold ConvertToUpdate.
    rewrite (slice_to_nonempty H). cbn [bind].
    destruct (set_loop _ _ _ _ _) as [setMap m1].
    destruct (buildWhereFromFilter _ _ _ _) as [wb m2].
    destruct (dialect c); discriminate.
  - intros where_ returning msg. unfold ConvertToDelete.
    rewrite (slice_to_nonempty H). cbn [bind].
    destruct (buildWhereFromFilter _ _ _ _) as [wb m2].
    destruct (dialect c); discriminate.
Qed.

Lemma table_alias_of_empty_type_name_panics_witness :
  ConvertToSelect
    (mkConverter (mkSchema []) PostgreSQL NewPostgreSQLMarshaler [] [] [])
    (mkInfo (Some (mkTypeRef "" true true None)) [] None)
  = Panic "slice bounds out of range".
Proof.
  apply (@table_alias_of_empty_type_name_panics
           (mkConverter (mkSchema []) PostgreSQL NewPostgreSQLMarshaler
                        [] [] [])
           (mkInfo (Some (mkTypeRef "" true true None)) [] None)
           (mkTypeRef "" true true None)); reflexivity.
Defined.

(** ** Field collection *)

Import Collector Inputs.

Lemma visits_all_id {A : Type} : visits_all (fun l : list (string * A) => l).
Proof. intros l. apply Permutation_refl. Qed.

Lemma visits_all_rev {A : Type} : visits_all (@rev (string * A)).
Proof. intros l. apply Permutation_sym, Permutation_rev. Qed.

Lemma visits_all_singleton {A : Type} (ord : range_order A) kv :
  visits_all ord -> ord [kv] = [kv].
Proof.
  intros Hord. apply Permutation_length_1_inv, Permutation_sym, Hord.
Qed.

(** C3 does not hold of the code: [CollectFields] ends by ranging over the
    Go map [fieldMap], so the order of the collected fields is the order in
    which the runtime visits the map.  For the selection [{ a b }] two
    admissible visiting orders give the keys as [a, b] and as [b, a]: the
    result is neither determined by the inputs nor in first-encounter
    order. *)
Theorem CollectFields_order_is_map_iteration_order :
  visits_all (fun l : list (string * SelectedField) => l)
  /\ visits_all (@rev (string * SelectedField))
  /\ option_map (option_map response_keys)
       (CollectFields (fun l => l) no_schema 1 two_fields "Query")
     = Some (Some ["a"; "b"])
  /\ option_map (option_map response_keys)
       (CollectFields (@rev _) no_schema 1 two_fields "Query")
     = Some (Some ["b"; "a"]).
Proof.
  split; [apply visits_all_id | split; [apply visits_all_rev | ]].
  split; reflexivity.
Qed.

(** C4 does not hold of the code: when a response key occurs again, the
    nested fields of the new occurrence are appended to those of the first,
    without looking at their response keys.  Two fragments that both select
    [user { name }] give one [user] field whose nested selection holds
    [name] twice, whatever the order in which maps are visited. *)
Theorem CollectFields_merge_keeps_duplicate_nested_keys
  (ord : range_order SelectedField) :
  visits_all ord ->
  CollectFields ord two_fragments 3 two_spreads "Query"
  = Some (Some (mkSelectionSet
       [selected "user"
          (Some (mkSelectionSet [selected "name" None; selected "name" None]
                                false))]
       false)).
Proof.
  intros Hord.
  unfold CollectFields, collect_with, two_spreads, two_fragments, user_name,
    plain.
  cbn -[String.eqb]. unfold finish. cbn.
  rewrite !(visits_all_singleton _ Hord). reflexivity.
Qed.

Lemma CollectFields_merge_keeps_duplicate_nested_keys_witness :
  CollectFields (fun l => l) two_fragments 3 two_spreads "Query"
  = Some (Some (mkSelectionSet
       [selected "user"
          (Some (mkSelectionSet [selected "name" None; selected "name" None]
                                false))]
       false)).
Proof.
  apply (@CollectFields_merge_keeps_duplicate_nested_keys (fun l => l)).
  intros l. apply Permutation_refl.
Defined.

(** ** Execution of a selection set *)

Import Executor.

(** C6 does not hold of the code for the path: the path of a field is made
    by [append(path, key)], and when the parent path has spare capacity
    (first at depth four: three elements in an array of four) every sibling
    writes its key into the same array slot.  In
    [{ a { b { c { x y } } } }] with a failing resolver for [x], the entry
    of [x] is null, [y] keeps its value and one error is recorded, but the
    path of that error reads [a, b, c, y] once [y] has been executed. *)
Theorem executeSelectionSet_error_path_overwritten_by_sibling :
  fst run_four_levels
  = Some [("a", GMap [("b", GMap [("c",
             GMap [("x", GNil); ("y", GScalar "2")])])])]
  /\ response_errors (snd run_four_levels)
     = [("boom", [PKey "a"; PKey "b"; PKey "c"; PKey "y"])]
  /\ response_errors (snd run_four_levels)
     <> [("boom", [PKey "a"; PKey "b"; PKey "c"; PKey "x"])].
Proof.
  split; [reflexivity | split; [reflexivity | discriminate]].
Qed.

(** ** The orderBy argument *)

(** C8 does not hold of the code for the list form: there every entry goes
    through [OrderByBuilder.Add], which already appends the direction to the
    column text, and the finished text is then stored as a column of
    direction ascending; the statement reads [DESC ASC].  The single-object
    form stores the column and the requested direction. *)
Theorem orderBy_list_form_appends_direction_twice :
  (exists r,
      ConvertToSelect users_converter
        (users_query [("orderBy",
           VList [VMap [("field", VStr "name");
                        ("direction", VStr "DESC")]])])
      = Ok r
      /\ OrderBy (Options r)
         = [mkOrderBy ("u." ++ QuoteIdentifier "name" ++ " DESC") OrderAsc]
      /\ Query r
         = "SELECT *" ++ nl ++ "FROM " ++ QuoteIdentifier "users" ++ " u" ++
           nl ++ "ORDER BY u." ++ QuoteIdentifier "name" ++ " DESC ASC")
  /\ (exists r,
         ConvertToSelect users_converter
           (users_query [("orderBy",
              VMap [("field", VStr "name"); ("direction", VStr "DESC")])])
         = Ok r
         /\ OrderBy (Options r)
            = [mkOrderBy ("u." ++ QuoteIdentifier "name") OrderDesc]
         /\ Query r
            = "SELECT *" ++ nl ++ "FROM " ++ QuoteIdentifier "users" ++ " u" ++
              nl ++ "ORDER BY u." ++ QuoteIdentifier "name" ++ " DESC").
Proof.
  split; eexists; (split; [vm_compute; reflexivity | split; reflexivity]).
Qed.

(** ** Relation fields and lateral joins *)






(** ** Filter operands reach the statement through placeholders only *)

Lemma same_text_refl st : same_text st st.
Proof. split; reflexivity. Qed.







Section MaskedFilter.

Variable quote : string -> string.
Variable tableAlias : string.



Lemma vsize_in_list c conditions :
  In c conditions -> (vsize c < vsize (VList conditions))%nat.
Proof.
  cbn [vsize]. induction conditions as [|x rest IH]; intros Hin; [easy |].
  destruct Hin as [<- | Hin]; [lia | specialize (IH Hin); lia].
Qed.



Lemma vsize_in_map key value entries :
  In (key, value) entries -> (vsize value < vsize (VMap entries))%nat.
Proof.
  cbn [vsize]. induction entries as [|[k x] rest IH]; intros Hin; [easy |].
  destruct Hin as [Heq | Hin]; [injection Heq as -> ->; lia |].
  specialize (IH Hin); lia.
Qed.



End MaskedFilter.










(** * Further properties of the code *)

(** ** Quoting of string literals and identifiers *)

Lemma append_assoc (a b c : string) : (a ++ b) ++ c = a ++ (b ++ c).
Proof. induction a as [|x a IH]; cbn; [reflexivity | now rewrite IH]. Qed.

Lemma read_body_doubled (q : ascii) (s tail : string) :
  begins_with q tail = false ->
  read_body q
    (replace_byte q (String q (String q EmptyString)) s ++ String q tail)
  = Some (s, tail).
Proof.
  intros Htail. induction s as [|c s IH].
  - cbn [replace_byte String.append read_body]. rewrite Ascii.eqb_refl.
    destruct tail as [|c2 rest2]; [reflexivity |].
    cbn [begins_with] in Htail. now rewrite Htail.
  - cbn [replace_byte]. destruct (Ascii.eqb c q) eqn:Hc.
    + apply Ascii.eqb_eq in Hc. subst c.
      cbn [String.append read_body]. rewrite !Ascii.eqb_refl. now rewrite IH.
    + cbn [String.append read_body]. rewrite Hc. now rewrite IH.
Qed.

Lemma EscapeIdentifier_replace (s : string) :
  Dialect.EscapeIdentifier s
  = replace_byte (ascii_of_nat 34) (Dialect.dquote ++ Dialect.dquote) s.
Proof.
  induction s as [|c s IH]; [reflexivity |].
  cbn [Dialect.EscapeIdentifier replace_byte].
  destruct (Ascii.eqb c (ascii_of_nat 34)) eqn:Hc; rewrite IH;
    [| reflexivity].
  apply Ascii.eqb_eq in Hc. now subst c.
Qed.

(** X1: a string literal written by [QuoteString] (of the marshaler and of
    the dialect) is read back by a SQL lexer as one literal whose text is
    the original string, whatever quotes it contains, and the lexer
    continues with the text that follows. *)
Theorem QuoteString_is_read_back (s tail : string) :
  begins_with "'"%char tail = false ->
  read_quoted "'"%char (Marshal.QuoteString s ++ tail) = Some (s, tail)
  /\ read_quoted "'"%char (Dialect.QuoteString s ++ tail) = Some (s, tail).
Proof.
  intros Htail.
  pose proof (read_body_doubled "'"%char s tail Htail) as Hbody.
  unfold Marshal.QuoteString, Dialect.QuoteString, Dialect.EscapeString.
  split; rewrite !append_assoc; cbn [String.append read_quoted];
    rewrite Ascii.eqb_refl; exact Hbody.
Qed.

Lemma QuoteString_is_read_back_witness :
  read_quoted "'"%char (Marshal.QuoteString "O'Neil; --" ++ " AND x = 1")
  = Some ("O'Neil; --", " AND x = 1")
  /\ read_quoted "'"%char (Dialect.QuoteString "O'Neil; --" ++ " AND x = 1")
     = Some ("O'Neil; --", " AND x = 1").
Proof.
  apply (@QuoteString_is_read_back "O'Neil; --" " AND x = 1"). reflexivity.
Defined.

(** X2: an identifier written by [QuoteIdentifier] (of the dialect and of
    the marshaler) is read back as one quoted identifier whose name is the
    original string, whatever double quotes it contains. *)
Theorem QuoteIdentifier_is_read_back (s tail : string) :
  begins_with (ascii_of_nat 34) tail = false ->
  read_quoted (ascii_of_nat 34) (Dialect.QuoteIdentifier s ++ tail)
  = Some (s, tail)
  /\ read_quoted (ascii_of_nat 34) (Marshal.QuoteIdentifier s ++ tail)
     = Some (s, tail).
Proof.
  intros Htail.
  pose proof (read_body_doubled (ascii_of_nat 34) s tail Htail) as Hbody.
  unfold Dialect.QuoteIdentifier, Marshal.QuoteIdentifier.
  rewrite EscapeIdentifier_replace.
  split; rewrite !append_assoc; cbn [String.append read_quoted Dialect.dquote];
    rewrite Ascii.eqb_refl; exact Hbody.
Qed.

Lemma QuoteIdentifier_is_read_back_witness :
  read_quoted (ascii_of_nat 34)
    (Dialect.QuoteIdentifier "users; drop" ++ " u")
  = Some ("users; drop", " u")
  /\ read_quoted (ascii_of_nat 34)
       (Marshal.QuoteIdentifier "users; drop" ++ " u")
     = Some ("users; drop", " u").
Proof.
  apply (@QuoteIdentifier_is_read_back "users; drop" " u"). reflexivity.
Defined.

(** ** Snake case *)






(** ** Parameters bound while a filter is translated *)

Section FilterKeeps.

Variable P : PostgreSQLMarshaler -> Prop.
Hypothesis P_MarshalValue : forall m v, P m -> P (snd (MarshalValue m v)).
Variable quote : string -> string.
Variable tableAlias : string.

Lemma add_condition_keeps st column op v :
  P (snd st) -> P (snd (add_condition st column op v)).
Proof.
  intros H. unfold add_condition, AddCondition.
  pose proof (@P_MarshalValue (snd st) v H) as H'.
  destruct (MarshalValue (snd st) v) as [p m']. exact H'.
Qed.

Lemma ops_loop_keeps column ops :
  forall st, P (snd st) -> P (snd (ops_loop column ops st)).
Proof.
  induction ops as [|[op operand] ops IH]; intros st H; [exact H |].
  cbn [ops_loop]. apply IH. now apply add_condition_keeps.
Qed.

Lemma and_loop_keeps n conditions :
  (forall c, (vsize c < n)%nat -> forall st, P (snd st) ->
     P (snd (buildWhereFromFilterV quote tableAlias c st))) ->
  (forall c, In c conditions -> (vsize c < n)%nat) ->
  forall st, P (snd st) ->
    P (snd (and_loop (buildWhereFromFilterV quote tableAlias) conditions st)).
Proof.
  intros IH. induction conditions as [|cond rest IHl]; intros Hsz st H;
    [exact H |].
  cbn [and_loop]. apply IHl; [intros c Hc; apply Hsz; now right |].
  destruct cond; try exact H.
  apply IH; [apply Hsz; now left | exact H].
Qed.

Lemma or_loop_keeps n conditions :
  (forall c, (vsize c < n)%nat -> forall st, P (snd st) ->
     P (snd (buildWhereFromFilterV quote tableAlias c st))) ->
  (forall c, In c conditions -> (vsize c < n)%nat) ->
  forall st, P (snd st) ->
    P (snd (or_loop (buildWhereFromFilterV quote tableAlias) conditions st)).
Proof.
  intros IH. induction conditions as [|cond rest IHl]; intros Hsz st H;
    [exact H |].
  cbn [or_loop]. apply IHl; [intros c Hc; apply Hsz; now right |].
  destruct cond; try exact H.
  cbn [snd]. apply IH; [apply Hsz; now left | exact H].
Qed.

Lemma filter_entry_keeps n key value :
  (forall c, (vsize c < n)%nat -> forall st, P (snd st) ->
     P (snd (buildWhereFromFilterV quote tableAlias c st))) ->
  (vsize value < n)%nat ->
  forall st, P (snd st) ->
    P (snd (filter_entry (buildWhereFromFilterV quote tableAlias) quote
              tableAlias key value st)).
Proof.
  intros IH Hsz st H. unfold filter_entry.
  assert (Hsub : forall items, value = VList items ->
                 forall c, In c items -> (vsize c < n)%nat).
  { intros items -> c Hc. pose proof (vsize_in_list c items Hc). lia. }
  destruct (mem key ["_and"; "AND"]).
  - destruct value; try exact H.
    apply and_loop_keeps with (n := n); auto. now apply Hsub.
  - destruct (mem key ["_or"; "OR"]).
    + destruct value; try exact H. cbn [snd].
      apply or_loop_keeps with (n := n); auto. now apply Hsub.
    + destruct (mem key ["_not"; "NOT"]).
      * destruct value; try exact H. cbn [snd].
        apply IH; [exact Hsz | exact H].
      * destruct value; try now apply add_condition_keeps.
        now apply ops_loop_keeps.
Qed.

Lemma entries_loop_keeps n entries :
  (forall c, (vsize c < n)%nat -> forall st, P (snd st) ->
     P (snd (buildWhereFromFilterV quote tableAlias c st))) ->
  (forall key value, In (key, value) entries -> (vsize value < n)%nat) ->
  forall st, P (snd st) ->
    P (snd (entries_loop (buildWhereFromFilterV quote tableAlias) quote
              tableAlias entries st)).
Proof.
  intros IH. induction entries as [|[key value] rest IHl]; intros Hsz st H;
    [exact H |].
  cbn [entries_loop]. apply IHl; [intros k v Hin; apply (Hsz k v); now right |].
  apply filter_entry_keeps with (n := n); auto.
  apply (Hsz key value). now left.
Qed.

Lemma buildWhereFromFilterV_keeps_below n :
  forall c, (vsize c < n)%nat -> forall st, P (snd st) ->
    P (snd (buildWhereFromFilterV quote tableAlias c st)).
Proof.
  induction n as [|n IH]; intros c Hc st H; [lia |].
  destruct c; try exact H.
  cbn [buildWhereFromFilterV].
  apply entries_loop_keeps with (n := vsize (VMap entries)); auto.
  - intros c' Hc'. apply IH. lia.
  - intros key value Hin. now apply vsize_in_map with (key := key).
Qed.

Lemma buildWhereFromFilterV_keeps filter st :
  P (snd st) -> P (snd (buildWhereFromFilterV quote tableAlias filter st)).
Proof.
  apply (buildWhereFromFilterV_keeps_below (n := S (vsize filter))). lia.
Qed.

End FilterKeeps.

Lemma MarshalValue_aligned_extends m0 m v :
  aligned m /\ extends m0 m ->
  aligned (snd (MarshalValue m v)) /\ extends m0 (snd (MarshalValue m v)).
Proof.
  intros [Ha [added He]].
  destruct v; unfold MarshalValue, AddParam, NextPlaceholder;
    cbn [snd]; try (split; [exact Ha | now exists added]);
    (split;
     [unfold aligned in *; cbn [placeholderCounter params];
      rewrite length_app; cbn [length]; lia
     |eexists; cbn [params]; rewrite He, <- app_assoc; reflexivity]).
Qed.

(** X4: translating a filter with [buildWhereFromFilter] keeps the
    marshaler aligned (as many placeholders issued as parameters held, which
    is the state after [Reset]) and only adds parameters after the ones
    that were already bound: none is removed or moved. *)
Theorem buildWhereFromFilter_keeps_parameters_aligned
  (quote : string -> string) (filter : list (string * Value))
  (tableAlias : string) (b : WhereClauseBuilder) (m : PostgreSQLMarshaler) :
  aligned m ->
  aligned (snd (buildWhereFromFilter quote filter tableAlias (b, m)))
  /\ extends m (snd (buildWhereFromFilter quote filter tableAlias (b, m))).
Proof.
  intros Ha. unfold buildWhereFromFilter.
  apply (@buildWhereFromFilterV_keeps
           (fun m' => aligned m' /\ extends m m')
           (fun m' v => @MarshalValue_aligned_extends m m' v)
           quote tableAlias
           (VMap filter) (b, m)).
  split; [exact Ha | exists []; now rewrite app_nil_r].
Qed.

Lemma buildWhereFromFilter_keeps_parameters_aligned_witness :
  aligned
    (snd (buildWhereFromFilter Dialect.QuoteIdentifier
            [("age", VMap [("_gt", VInt 18)]); ("name", VNil)] "u"
            (NewWhereClauseBuilder, Reset NewPostgreSQLMarshaler)))
  /\ extends (Reset NewPostgreSQLMarshaler)
       (snd (buildWhereFromFilter Dialect.QuoteIdentifier
               [("age", VMap [("_gt", VInt 18)]); ("name", VNil)] "u"
               (NewWhereClauseBuilder, Reset NewPostgreSQLMarshaler))).
Proof.
  apply (@buildWhereFromFilter_keeps_parameters_aligned
           Dialect.QuoteIdentifier
           [("age", VMap [("_gt", VInt 18)]); ("name", VNil)] "u"
           NewWhereClauseBuilder (Reset NewPostgreSQLMarshaler)).
  reflexivity.
Defined.

(** ** Filter operators and empty combinators *)

Lemma append_empty_r (s : string) : s ++ "" = s.
Proof. induction s as [|c s IH]; cbn; [reflexivity | now rewrite IH]. Qed.

(** X5: for every operator name of the table, [convertGraphQLOperator]
    followed by [AddCondition] adds exactly one condition: the column, the
    SQL operator of that name, and the placeholder (or NULL) that
    [MarshalValue] gives for the operand. *)
Theorem filter_operator_writes_its_sql_operator
  (op before after : string) :
  In (op, before, after) operator_table ->
  forall b m column operand,
    clauses (fst (AddCondition b m column (convertGraphQLOperator op) operand))
    = app (clauses b)
          [column ++ before ++ fst (MarshalValue m operand) ++ after].
Proof.
  intros Hin b m column operand. unfold AddCondition.
  destruct (MarshalValue m operand) as [placeholder m'].
  cbn [fst clauses].
  unfold operator_table in Hin. cbn [In] in Hin.
  repeat (destruct Hin as [Heq | Hin];
          [injection Heq as <- <- <-;
           cbn; rewrite ?append_empty_r; reflexivity |]).
  destruct Hin.
Qed.

Lemma filter_operator_writes_its_sql_operator_witness :
  clauses (fst (AddCondition NewWhereClauseBuilder NewPostgreSQLMarshaler
                  "u.tags" (convertGraphQLOperator "_nin") (VInt 3)))
  = ["u.tags <> ALL($1)"].
Proof.
  apply (@filter_operator_writes_its_sql_operator "_nin" " <> ALL(" ")").
  unfold operator_table. cbn [In]. do 24 right. left. reflexivity.
Defined.





(** ** Table, column and join overrides *)

Lemma lookup_map_set_eq {A : Type} key (v : A) m :
  lookup key (map_set key v m) = Some v.
Proof.
  induction m as [|[k w] rest IH]; cbn [map_set lookup].
  - now rewrite String.eqb_refl.
  - destruct (String.eqb k key) eqn:Hk; cbn [lookup]; rewrite Hk;
      [reflexivity | exact IH].
Qed.

Lemma lookup_map_set_ne {A : Type} key key' (v : A) m :
  key' <> key ->
  lookup key' (map_set key v m) = lookup key' m.
Proof.
  intros Hne. induction m as [|[k w] rest IH]; cbn [map_set lookup].
  - destruct (String.eqb key key') eqn:Hk; [| reflexivity].
    apply String.eqb_eq in Hk. now elim Hne.
  - destruct (String.eqb k key) eqn:Hk; cbn [lookup].
    + apply String.eqb_eq in Hk. subst k.
      destruct (String.eqb key key') eqn:Hk'; [| reflexivity].
      apply String.eqb_eq in Hk'. now elim Hne.
    + now rewrite IH.
Qed.

(** X7: a table, column or join registered on the converter is what the
    converter finds afterwards for that type (and field), and
    registering it changes the table of no other type and the column of no
    other type and field. *)
Theorem converter_overrides_round_trip
  (c : SQLConverter) (typeName fieldName name : string) (cfg : JoinConfig) :
  getTableName (MapTypeToTable c typeName name) typeName = name
  /\ (forall other, other <> typeName ->
         getTableName (MapTypeToTable c typeName name) other
         = getTableName c other)
  /\ getColumnName (MapFieldToColumn c typeName fieldName name)
                   typeName fieldName = name
  /\ (forall otherType otherField,
         otherType <> typeName \/ otherField <> fieldName ->
         getColumnName (MapFieldToColumn c typeName fieldName name)
                       otherType otherField
         = getColumnName c otherType otherField)
  /\ lookup (typeName ++ "." ++ fieldName)
            (joinConfig (ConfigureJoin c typeName fieldName cfg))
     = Some cfg.
Proof.
  unfold getTableName, getColumnName, MapTypeToTable, MapFieldToColumn,
    ConfigureJoin.
  cbn [tableMap columnMap joinConfig].
  split; [now rewrite lookup_map_set_eq |].
  split; [intros other Hne; now rewrite lookup_map_set_ne |].
  split; [now rewrite !lookup_map_set_eq |].
  split; [| now rewrite lookup_map_set_eq].
  intros otherType otherField Hne.
  destruct (String.eqb otherType typeName) eqn:Ht.
  - apply String.eqb_eq in Ht. subst otherType.
    destruct Hne as [Hne | Hne]; [now elim Hne |].
    rewrite lookup_map_set_eq, (lookup_map_set_ne _ _ Hne).
    destruct (lookup typeName (columnMap c)); reflexivity.
  - apply String.eqb_neq in Ht. now rewrite (lookup_map_set_ne _ _ Ht).
Qed.

Lemma converter_overrides_round_trip_witness :
  getTableName (MapTypeToTable Inputs.users_converter "Post" "blog_posts")
               "User" = "users"
  /\ getColumnName
       (MapFieldToColumn Inputs.users_converter "Post" "createdAt" "created")
       "Post" "updatedAt" = "updated_at".
Proof.
  destruct (converter_overrides_round_trip Inputs.users_converter
              "Post" "createdAt" "blog_posts"
              (mkJoinConfig "" "" "" "" JoinInner ""))
    as (_ & Htable & _ & _ & _).
  destruct (converter_overrides_round_trip Inputs.users_converter
              "Post" "createdAt" "created"
              (mkJoinConfig "" "" "" "" JoinInner ""))
    as (_ & _ & _ & Hcolumn & _).
  split.
  - rewrite (Htable "User"); [reflexivity | discriminate].
  - rewrite (Hcolumn "Post" "updatedAt"); [reflexivity | right; discriminate].
Defined.

(** ** INSERT, DELETE and dialect errors *)

Lemma nonempty_map {A B : Type} (f : A -> B) (l : list A) :
  Dialect.nonempty (map f l) = Dialect.nonempty l.
Proof. now destruct l. Qed.

Lemma insert_loop_marshals c typeName input :
  forall columns values m,
    insert_loop c typeName input columns values m
    = (app columns
         (map (fun kv : string * Value =>
                 dQuoteIdentifier (dialect c)
                   (getColumnName c typeName (fst kv))) input),
       app values (fst (marshal_all m (map snd input))),
       snd (marshal_all m (map snd input))).
Proof.
  induction input as [|[field value] rest IH]; intros columns values m.
  - cbn. now rewrite !app_nil_r.
  - cbn [insert_loop map marshal_all fst snd].
    destruct (MarshalValue m value) as [placeholder m'].
    rewrite IH.
    destruct (marshal_all m' (map snd rest)) as [ps m''].
    cbn [fst snd]. now rewrite <- !app_assoc.
Qed.

(** X8: for the PostgreSQL dialect and an input without nil values,
    [ConvertToInsert] returns a statement (it does not panic, whatever the
    type name) that lists the quoted column of every entry in order, gives
    the i-th entry the placeholder $i, and binds exactly the input values,
    in the same order. *)
Theorem ConvertToInsert_aligns_columns_and_parameters
  (c : SQLConverter) (typeName : string) (input : list (string * Value))
  (returning : list string) :
  dialect c = PostgreSQL ->
  Forall non_nil (map snd input) ->
  ConvertToInsert c typeName input returning
  = Ok (mkMutationResult
          ("INSERT INTO " ++ Dialect.QuoteIdentifier (getTableName c typeName)
           ++ (if Dialect.nonempty input
               then " (" ++
                    join (map (fun kv : string * Value =>
                                 Dialect.QuoteIdentifier
                                   (getColumnName c typeName (fst kv)))
                              input) ", " ++ ")"
               else "")
           ++ nl ++ "VALUES (" ++
           join (map (fun k => "$" ++ itoa (Z.of_nat k + 1))
                     (seq 0 (length input))) ", " ++ ")"
           ++ (if Dialect.nonempty returning
               then nl ++ "RETURNING " ++
                    join (map (fun field =>
                                 Dialect.QuoteIdentifier
                                   (getColumnName c typeName field))
                              returning) ", "
               else ""))
          (map snd input) "INSERT").
Proof.
  intros Hd Hall. unfold ConvertToInsert.
  rewrite insert_loop_marshals. rewrite (marshal_all_non_nil _ Hall).
  cbn [fst snd app Reset placeholderCounter params].
  rewrite Hd. unfold BuildInsert, returning_columns.
  cbn [OnConflict ITableName IColumns IValues IReturning bind
       dQuoteIdentifier map join Params params].
  rewrite Hd. cbn [dQuoteIdentifier]. rewrite length_map.
  rewrite !nonempty_map, !append_assoc. cbn [Z.add]. reflexivity.
Qed.

Lemma ConvertToInsert_aligns_columns_and_parameters_witness :
  ConvertToInsert Inputs.users_converter "User"
    [("firstName", VStr "Ann"); ("age", VInt 30)] ["id"]
  = Ok (mkMutationResult
          ("INSERT INTO " ++ Dialect.QuoteIdentifier "users" ++ " (" ++
           Dialect.QuoteIdentifier "first_name" ++ ", " ++
           Dialect.QuoteIdentifier "age" ++ ")" ++ nl ++
           "VALUES ($1, $2)" ++ nl ++ "RETURNING " ++
           Dialect.QuoteIdentifier "id")
          [VStr "Ann"; VInt 30] "INSERT").
Proof.
  apply (@ConvertToInsert_aligns_columns_and_parameters
           Inputs.users_converter "User"
           [("firstName", VStr "Ann"); ("age", VInt 30)] ["id"] eq_refl).
  repeat constructor; discriminate.
Defined.

Lemma to_lower_first_nonempty (s : string) :
  s <> "" -> Dialect.str_nonempty (to_lower (substring 0 1 s)) = true.
Proof.
  destruct s as [|c rest]; [now intros H; elim H |].
  intros _. cbn [substring to_lower]. destruct rest; reflexivity.
Qed.

(** X9: [ConvertToDelete] with an empty filter does not leave the WHERE
    clause out: for the PostgreSQL dialect and a non-empty type name the
    statement it returns has the keyword WHERE followed by no condition,
    and no parameter. *)
Theorem ConvertToDelete_empty_filter_writes_empty_where
  (c : SQLConverter) (typeName : string) (returning : list string) :
  dialect c = PostgreSQL ->
  typeName <> "" ->
  ConvertToDelete c typeName [] returning
  = Ok (mkMutationResult
          ("DELETE FROM " ++ Dialect.QuoteIdentifier (getTableName c typeName)
           ++ " " ++ to_lower (substring 0 1 typeName)
           ++ nl ++ "WHERE "
           ++ (if Dialect.nonempty returning
               then nl ++ "RETURNING " ++
                    join (map (fun field =>
                                 Dialect.QuoteIdentifier
                                   (getColumnName c typeName field))
                              returning) ", "
               else ""))
          [] "DELETE").
Proof.
  intros Hd Hname. unfold ConvertToDelete.
  rewrite (slice_to_nonempty Hname). cbn [bind].
  unfold buildWhereFromFilter.
  cbn [buildWhereFromFilterV entries_loop]. rewrite Hd.
  unfold BuildDelete, returning_columns.
  cbn [DTableName DTableAlias DUsing DWhere DReturning Dialect.nonempty
       Build clauses NewWhereClauseBuilder join Params params Reset].
  rewrite (to_lower_first_nonempty Hname), Hd. cbn [dQuoteIdentifier].
  do 2 f_equal.
  destruct returning; reflexivity.
Qed.

Lemma ConvertToDelete_empty_filter_writes_empty_where_witness :
  ConvertToDelete Inputs.users_converter "User" [] []
  = Ok (mkMutationResult
          ("DELETE FROM " ++ Dialect.QuoteIdentifier "users" ++ " u" ++
           nl ++ "WHERE ")
          [] "DELETE").
Proof.
  apply (@ConvertToDelete_empty_filter_writes_empty_where
           Inputs.users_converter "User" [] eq_refl).
  discriminate.
Defined.

(** X10: with a dialect that is not a PostgreSQL dialect no conversion
    returns a statement: [ConvertToInsert] returns the dialect error, and
    [ConvertToSelect], [ConvertToUpdate] and [ConvertToDelete] never return
    a result. *)
Theorem conversion_needs_PostgreSQL_dialect
  (c : SQLConverter) (quote : string -> string) :
  dialect c = OtherDialect quote ->
  (forall typeName input returning,
      ConvertToInsert c typeName input returning
      = Err "dialect does not support PostgreSQL INSERT building")
  /\ (forall info r, ConvertToSelect c info <> Ok r)
  /\ (forall ord typeName where_ set returning r,
         ConvertToUpdate ord c typeName where_ set returning <> Ok r)
  /\ (forall typeName where_ returning r,
         ConvertToDelete c typeName where_ returning <> Ok r).
Proof.
  intros Hd. repeat split.
  - intros. unfold ConvertToInsert.
    destruct (insert_loop _ _ _ _ _ _) as [[columns values] m].
    now rewrite Hd.
  - intros info r. unfold ConvertToSelect.
    destruct (ReturnType info); [| discriminate].
    destruct (slice_to _ 1); cbn [bind]; try discriminate.
    destruct (collectColumnsAndJoins _ _ _ _); cbn [bind]; try discriminate.
    destruct (processArguments _ _ _). rewrite Hd. discriminate.
  - intros. unfold ConvertToUpdate.
    destruct (slice_to _ 1); cbn [bind]; try discriminate.
    destruct (set_loop _ _ _ _ _). destruct (buildWhereFromFilter _ _ _ _).
    rewrite Hd. discriminate.
  - intros. unfold ConvertToDelete.
    destruct (slice_to _ 1); cbn [bind]; try discriminate.
    destruct (buildWhereFromFilter _ _ _ _). rewrite Hd. discriminate.
Qed.

Lemma conversion_needs_PostgreSQL_dialect_witness :
  ConvertToInsert
    (mkConverter (mkSchema []) (OtherDialect (fun s => s))
                 NewPostgreSQLMarshaler [] [] [])
    "User" [("name", VStr "Ann")] []
  = Err "dialect does not support PostgreSQL INSERT building".
Proof.
  apply (@conversion_needs_PostgreSQL_dialect
           (mkConverter (mkSchema []) (OtherDialect (fun s => s))
                        NewPostgreSQLMarshaler [] [] [])
           (fun s => s) eq_refl).
Defined.

(** ** ON CONFLICT DO UPDATE *)





(** ** DISTINCT ON and ORDER BY *)

Lemma distinct_prefix_mismatch_false distinctOn :
  forall orderBy,
    distinct_prefix_mismatch distinctOn orderBy = false
    <-> firstn (length distinctOn) (map Column orderBy) = distinctOn.
Proof.
  induction distinctOn as [|col rest IH]; intros orderBy;
    [cbn; tauto |].
  destruct orderBy as [|o os]; cbn [distinct_prefix_mismatch length map firstn].
  - split; discriminate.
  - destruct (String.eqb (Column o) col) eqn:Hc.
    + apply String.eqb_eq in Hc. rewrite IH. split.
      * intros ->. now rewrite Hc.
      * intros H. now injection H.
    + apply String.eqb_neq in Hc. split; [discriminate |].
      intros H. injection H as H _. now elim Hc.
Qed.

(** X12: [Validate] reports the DistinctOn/OrderBy finding exactly when
    DISTINCT ON and ORDER BY are both given and the DISTINCT ON columns are
    not, in the same order, the first ORDER BY columns (in particular when
    there are fewer ORDER BY columns).  With an empty ORDER BY the check
    is not made. *)
Theorem Validate_distinct_on_is_prefix_of_order_by
  (o : PostgreSQLSelectOptions) :
  existsb (fun e => String.eqb (VField e) "DistinctOn/OrderBy") (Validate o)
  = true
  <-> DistinctOn o <> [] /\ OrderBy o <> []
      /\ firstn (length (DistinctOn o)) (map Column (OrderBy o))
         <> DistinctOn o.
Proof.
  unfold Validate. rewrite !existsb_app.
  assert (Hne : forall A (l : list A), Dialect.nonempty l = true <-> l <> [])
    by (intros A [|x l]; cbn; split; congruence).
  destruct (distinct_prefix_mismatch (DistinctOn o) (OrderBy o)) eqn:Hm.
  - assert (Hp : firstn (length (DistinctOn o)) (map Column (OrderBy o))
                 <> DistinctOn o).
    { intros H. apply distinct_prefix_mismatch_false in H. congruence. }
    destruct (Dialect.nonempty (DistinctOn o)) eqn:Hd;
      destruct (Dialect.nonempty (OrderBy o)) eqn:Ho;
      destruct (Dialect.nonempty (GroupBy o));
      destruct (Dialect.nonempty (Having o));
      destruct (ForUpdate o && negb (Dialect.nonempty (ForUpdateOf o))
                && existsb is_outer_join (Joins o));
      destruct (existsb is_left_join (Joins o));
      cbn; rewrite <- ?Hne, ?Hd, ?Ho;
      split; try tauto; try discriminate;
      try (intros (H1 & H2 & _); congruence);
      try (intros _; repeat split; try reflexivity; exact Hp).
  - apply distinct_prefix_mismatch_false in Hm.
    rewrite andb_false_r.
    destruct (Dialect.nonempty (DistinctOn o) && Dialect.nonempty (GroupBy o));
      destruct (Dialect.nonempty (Having o));
      destruct (Dialect.nonempty (GroupBy o));
      destruct (ForUpdate o && negb (Dialect.nonempty (ForUpdateOf o))
                && existsb is_outer_join (Joins o));
      destruct (existsb is_left_join (Joins o));
      cbn; split; try discriminate; intros (_ & _ & H); now elim H.
Qed.

(** ** What field collection keeps and drops *)

Lemma lookup_none_not_in {A : Type} key (m : list (string * A)) :
  lookup key m = None -> ~ In key (map fst m).
Proof.
  induction m as [|[k v] rest IH]; cbn [lookup map fst In]; [tauto |].
  destruct (String.eqb k key) eqn:Hk; [discriminate |].
  apply String.eqb_neq in Hk. intros Hn [Heq | Hin]; [now elim Hk | now apply IH].
Qed.

Lemma lookup_some_in {A : Type} key (v : A) m :
  lookup key m = Some v -> In (key, v) m.
Proof.
  induction m as [|[k w] rest IH]; cbn [lookup In]; [discriminate |].
  destruct (String.eqb k key) eqn:Hk.
  - apply String.eqb_eq in Hk. subst k. intros H. injection H as ->. now left.
  - intros H. right. now apply IH.
Qed.

Lemma map_set_keys_present {A : Type} key (v w : A) m :
  lookup key m = Some w -> map fst (map_set key v m) = map fst m.
Proof.
  induction m as [|[k x] rest IH]; cbn [lookup map_set map fst];
    [discriminate |].
  destruct (String.eqb k key) eqn:Hk; [reflexivity |].
  intros H. cbn [map fst]. now rewrite IH.
Qed.

Lemma map_set_keys_absent {A : Type} key (v : A) m :
  lookup key m = None -> map fst (map_set key v m) = (map fst m ++ [key])%list.
Proof.
  induction m as [|[k x] rest IH]; cbn [lookup map_set map fst app];
    [reflexivity |].
  destruct (String.eqb k key) eqn:Hk; [discriminate |].
  intros H. cbn [map fst]. now rewrite IH.
Qed.

Lemma map_set_Forall {A : Type} (Q : string * A -> Prop) key (v : A) m :
  Forall Q m -> Q (key, v) ->
  (forall k w, In (k, w) m -> String.eqb k key = true -> Q (k, v)) ->
  Forall Q (map_set key v m).
Proof.
  intros Hall Hq Hk. induction m as [|[k x] rest IH]; cbn [map_set].
  - now constructor.
  - inversion Hall as [|? ? Hx Hrest]; subst.
    destruct (String.eqb k key) eqn:Hkk.
    + constructor; [| exact Hrest]. apply (Hk k x); [now left | exact Hkk].
    + constructor; [exact Hx |]. apply IH; [exact Hrest |].
      intros k' w' Hin. apply (Hk k' w'). now right.
Qed.

Lemma keyed_set_new fm key field :
  keyed fm -> lookup key fm = None ->
  GetName field = key -> Name field <> "__typename" ->
  keyed (map_set key field fm).
Proof.
  intros [Hnd Hall] Hlk Hname Htn. split.
  - rewrite map_set_keys_absent by exact Hlk.
    apply NoDup_app; [exact Hnd | repeat constructor; intros [] | ].
    intros k Hin [<- | []]. now apply (@lookup_none_not_in _ key fm Hlk).
  - apply map_set_Forall; [exact Hall | now split |].
    intros k w _ Hk. apply String.eqb_eq in Hk. subst k. now split.
Qed.

Lemma merge_into_names existing nested :
  GetName (merge_into existing nested) = GetName existing
  /\ Name (merge_into existing nested) = Name existing.
Proof. destruct existing. split; reflexivity. Qed.

Lemma keyed_set_merged fm key existing nested :
  keyed fm -> lookup key fm = Some existing ->
  keyed (map_set key (merge_into existing nested) fm).
Proof.
  intros [Hnd Hall] Hlk. split.
  - now rewrite (@map_set_keys_present _ key _ existing fm Hlk).
  - pose proof (@lookup_some_in _ key existing fm Hlk) as Hin.
    rewrite Forall_forall in Hall. destruct (Hall _ Hin) as [Hg Hn].
    cbn [fst snd] in Hg, Hn.
    destruct (merge_into_names existing nested) as [Hg' Hn'].
    apply map_set_Forall.
    + now apply Forall_forall.
    + cbn [fst snd]. rewrite Hg', Hn'. now split.
    + intros k w _ Hk. apply String.eqb_eq in Hk. subst k.
      cbn [fst snd]. rewrite Hg', Hn'. now split.
Qed.

Lemma collectFieldsImpl_keyed ord fc fuel :
  forall sels parentType st st',
    keyed (fieldMap st) ->
    collectFieldsImpl ord fc fuel sels parentType st = Some st' ->
    keyed (fieldMap st').
Proof.
  induction fuel as [|fuel IHf]; intros sels parentType st st' Hk Heq;
    [discriminate |].
  cbn [collectFieldsImpl] in Heq.
  revert st Hk Heq.
  induction sels as [|sel rest IHs]; intros st Hk Heq.
  - injection Heq as <-. exact Hk.
  - destruct sel as [alias name args dirs selSet | name dirs
                    | typeCondition dirs selSet]; cbn in Heq.
    + destruct (negb (shouldInclude fc dirs)); [now apply (IHs st) |].
      destruct (String.eqb name "__typename") eqn:Htn;
        [apply (IHs (mkCState (fieldMap st) true)); [exact Hk | exact Heq] |].
      apply String.eqb_neq in Htn.
      destruct (lookup (if String.eqb alias "" then name else alias)
                       (fieldMap st)) as [existing|] eqn:Hlk.
      * destruct selSet as [nestedSel|]; [| now apply (IHs st)].
        destruct (collect_with ord (collectFieldsImpl ord fc fuel)
                    (Some nestedSel) _) as [nestedFields|];
          [| discriminate].
        refine (IHs _ _ Heq). cbn [fieldMap].
        now apply keyed_set_merged.
      * destruct (collect_with ord (collectFieldsImpl ord fc fuel)
                    selSet _) as [nested|]; [| discriminate].
        refine (IHs _ _ Heq). cbn [fieldMap].
        apply keyed_set_new; auto.
        unfold GetName. cbn [Alias Name].
        destruct (String.eqb alias ""); reflexivity.
    + destruct (negb (shouldInclude fc dirs)); [now apply (IHs st) |].
      destruct (lookup name (fragments fc)) as [fragment|];
        [| now apply (IHs st)].
      destruct (negb (typeApplies fc (TypeCondition fragment) parentType));
        [now apply (IHs st) |].
      destruct (collectFieldsImpl ord fc fuel (FSelectionSet fragment)
                  parentType st) as [st1|] eqn:Hfrag; [| discriminate].
      apply (IHs st1); [| exact Heq]. now apply (IHf _ _ _ _ Hk Hfrag).
    + destruct (negb (shouldInclude fc dirs)); [now apply (IHs st) |].
      destruct (negb (String.eqb typeCondition "")
                && negb (typeApplies fc typeCondition parentType));
        [now apply (IHs st) |].
      destruct (collectFieldsImpl ord fc fuel selSet parentType st)
        as [st1|] eqn:Hfrag; [| discriminate].
      apply (IHs st1); [| exact Heq]. now apply (IHf _ _ _ _ Hk Hfrag).
Qed.

Lemma keyed_fields_keys (l : list (string * SelectedField)) :
  Forall (fun kv => GetName (snd kv) = fst kv
                    /\ Name (snd kv) <> "__typename") l ->
  map GetName (map snd l) = map fst l
  /\ Forall (fun f => Name f <> "__typename") (map snd l).
Proof.
  induction 1 as [|kv l [Hg Hn] _ [IH1 IH2]]; [split; constructor |].
  cbn [map]. rewrite Hg, IH1. split; [reflexivity | now constructor].
Qed.

(** X13: whatever the order in which the map is visited, the fields one
    [CollectFields] call returns have pairwise distinct response keys, and
    none of them is a field named [__typename] (that selection only sets
    the flag of the selection set). *)
Theorem CollectFields_keeps_response_keys_unique
  (ord : range_order SelectedField) (fc : FieldCollector) (fuel : nat)
  (selectionSet : option (list Selection)) (parentType : string)
  (s : SelectionSet) :
  visits_all ord ->
  CollectFields ord fc fuel selectionSet parentType = Some (Some s) ->
  NoDup (response_keys s)
  /\ Forall (fun f => Name f <> "__typename") (Fields s).
Proof.
  intros Hord Heq. unfold CollectFields, collect_with in Heq.
  destruct selectionSet as [sels|]; [| discriminate].
  destruct (collectFieldsImpl ord fc fuel sels parentType (mkCState [] false))
    as [st|] eqn:Himpl; [| discriminate].
  injection Heq as <-.
  assert (Hk : keyed (fieldMap st)).
  { apply (@collectFieldsImpl_keyed ord fc fuel sels parentType
             (mkCState [] false) st); [| exact Himpl].
    split; constructor. }
  destruct Hk as [Hnd Hall].
  pose proof (Hord (fieldMap st)) as Hperm.
  assert (Hall' : Forall (fun kv => GetName (snd kv) = fst kv
                                    /\ Name (snd kv) <> "__typename")
                         (ord (fieldMap st))).
  { apply Forall_forall. intros kv Hin. rewrite Forall_forall in Hall.
    apply Hall. now apply (Permutation_in _ Hperm). }
  destruct (keyed_fields_keys Hall') as [Hkeys Hnames].
  unfold response_keys, finish. cbn [Fields]. split; [| exact Hnames].
  rewrite Hkeys.
  apply (Permutation_NoDup (l := map fst (fieldMap st))); [| exact Hnd].
  apply Permutation_map, Permutation_sym, Hperm.
Qed.

Lemma CollectFields_keeps_response_keys_unique_witness :
  NoDup (response_keys
           (mkSelectionSet
              [selected "user"
                 (Some (mkSelectionSet
                          [selected "name" None; selected "name" None]
                          false))]
              false))
  /\ Forall (fun f => Name f <> "__typename")
       (Fields
          (mkSelectionSet
             [selected "user"
                (Some (mkSelectionSet
                         [selected "name" None; selected "name" None]
                         false))]
             false)).
Proof.
  apply (@CollectFields_keeps_response_keys_unique
           (fun l => l) two_fragments 3 two_spreads "Query").
  - intros l. apply Permutation_refl.
  - reflexivity.
Defined.

Lemma shouldInclude_excludes fc dirs :
  shouldInclude fc dirs = negb (existsb (excludes fc) dirs).
Proof.
  induction dirs as [|dir rest IH]; [reflexivity |].
  cbn [shouldInclude existsb]. unfold excludes at 1.
  destruct (String.eqb (DirName dir) "skip") eqn:Hs.
  - destruct (ForName (DirArguments dir) "if") as [arg|]; [| exact IH].
    destruct (evaluateValue fc (ArgValue arg)) as [| [|] | | | | |];
      try exact IH; try reflexivity.
    apply String.eqb_eq in Hs. rewrite Hs. exact IH.
  - destruct (String.eqb (DirName dir) "include") eqn:Hi.
    + destruct (ForName (DirArguments dir) "if") as [arg|]; [| exact IH].
      destruct (evaluateValue fc (ArgValue arg)) as [| [|] | | | | |];
        try exact IH; reflexivity.
    + destruct (ForName (DirArguments dir) "if") as [arg|]; [| exact IH].
      destruct (evaluateValue fc (ArgValue arg)) as [| [|] | | | | |];
        exact IH.
Qed.

(** X14: a field, fragment spread or inline fragment that carries a
    [skip] directive whose [if] argument evaluates to true, or an [include]
    directive whose [if] argument evaluates to false (a literal or a
    variable), contributes nothing to the collected fields: the collection
    goes on as if the selection were not there. *)
Theorem excluded_selection_contributes_nothing
  (ord : range_order SelectedField) (fc : FieldCollector) (fuel : nat)
  (sel : Selection) (rest : list Selection) (parentType : string)
  (st : cstate) :
  existsb (excludes fc) (directives_of sel) = true ->
  collectFieldsImpl ord fc (S fuel) (sel :: rest) parentType st
  = collectFieldsImpl ord fc (S fuel) rest parentType st.
Proof.
  intros Hex.
  assert (Hinc : negb (shouldInclude fc (directives_of sel)) = true)
    by now rewrite shouldInclude_excludes, Hex.
  destruct sel; cbn [directives_of] in Hinc; cbn [collectFieldsImpl];
    rewrite Hinc; reflexivity.
Qed.

Lemma excluded_selection_contributes_nothing_witness :
  collectFieldsImpl (fun l => l)
    (mkCollector (mkSchema []) [] (Some [("hide", VBool true)])) 1
    [SField "secret" "secret" []
       [mkAstDirective "skip"
          [mkArgument "if" (Some (mkAstValue VariableValue "hide" []))]]
       None;
     plain "name" None]
    "Query" (mkCState [] false)
  = collectFieldsImpl (fun l => l)
      (mkCollector (mkSchema []) [] (Some [("hide", VBool true)])) 1
      [plain "name" None] "Query" (mkCState [] false).
Proof.
  apply (@excluded_selection_contributes_nothing (fun l => l)
           (mkCollector (mkSchema []) [] (Some [("hide", VBool true)])) 0).
  reflexivity.
Defined.

(** ** Integer literals *)

Lemma wrap64_shift a q : wrap64 (a + q * 2 ^ 64) = wrap64 a.
Proof.
  unfold wrap64. f_equal.
  replace (a + q * 2 ^ 64 + 2 ^ 63)%Z with (a + 2 ^ 63 + q * 2 ^ 64)%Z by ring.
  apply Z_mod_plus_full.
Qed.

Lemma wrap64_decompose a : exists q, wrap64 a = (a + q * 2 ^ 64)%Z.
Proof.
  exists (- ((a + 2 ^ 63) / 2 ^ 64))%Z. unfold wrap64.
  pose proof (Z.div_mod (a + 2 ^ 63) (2 ^ 64)) as H.
  assert (Hnz : (2 ^ 64 <> 0)%Z) by (vm_compute; discriminate).
  specialize (H Hnz). lia.
Qed.

Lemma wrap64_in_range z :
  (- 2 ^ 63 <= z < 2 ^ 63)%Z -> wrap64 z = z.
Proof.
  intros Hz. unfold wrap64.
  rewrite Z.mod_small; [lia |].
  change (2 ^ 64)%Z with (2 ^ 63 + 2 ^ 63)%Z. lia.
Qed.

Lemma wrap64_step a k : wrap64 (wrap64 a * 10 + k) = wrap64 (a * 10 + k).
Proof.
  destruct (wrap64_decompose a) as [q ->].
  replace ((a + q * 2 ^ 64) * 10 + k)%Z
    with (a * 10 + k + (q * 10) * 2 ^ 64)%Z by ring.
  apply wrap64_shift.
Qed.

Lemma wrap64_opp a : wrap64 (- wrap64 a) = wrap64 (- a).
Proof.
  destruct (wrap64_decompose a) as [q ->].
  replace (- (a + q * 2 ^ 64))%Z with (- a + (- q) * 2 ^ 64)%Z by ring.
  apply wrap64_shift.
Qed.

Lemma parse_digits_of_uint d :
  forall i a,
    parse_digits i (NilEmpty.string_of_uint d) (wrap64 a)
    = wrap64 (digits_value d a).
Proof.
  induction d; intros i a; cbn [NilEmpty.string_of_uint parse_digits
    digits_value]; try reflexivity;
    match goal with
    | |- context [is_digit ?c] =>
        change (is_digit c) with true; cbv iota
    end;
    match goal with
    | |- context [Z.of_nat ?n] =>
        let v := eval vm_compute in (Z.of_nat n) in
        change (Z.of_nat n) with v
    end;
    rewrite wrap64_step; apply IHd.
Qed.

Lemma of_uint_acc_digits d :
  forall acc, Z.pos (Pos.of_uint_acc d acc) = digits_value d (Z.pos acc).
Proof.
  induction d; intros acc; cbn [Pos.of_uint_acc digits_value];
    try reflexivity; rewrite IHd; f_equal; lia.
Qed.

Lemma of_uint_digits d : Z.of_uint d = digits_value d 0.
Proof.
  unfold Z.of_uint.
  induction d; cbn [Pos.of_uint digits_value Z.of_N]; try reflexivity;
    try exact IHd; cbn [Z.of_N]; rewrite of_uint_acc_digits; reflexivity.
Qed.

Lemma parse_NilZero_uint d i :
  parse_digits i (NilZero.string_of_uint d) 0 = wrap64 (Z.of_uint d).
Proof.
  rewrite of_uint_digits.
  change 0%Z with (wrap64 0) at 1.
  destruct d; try apply parse_digits_of_uint. reflexivity.
Qed.

Lemma NilZero_uint_no_sign d :
  match NilZero.string_of_uint d with
  | String "-"%char _ => False
  | _ => True
  end.
Proof. destruct d; exact I. Qed.

Lemma parseInt64_itoa (z : Z) :
  (- 2 ^ 63 <= z < 2 ^ 63)%Z -> parseInt64 (itoa z) = z.
Proof.
  intros Hz. unfold itoa, parseInt64.
  pose proof (DecimalZ.of_to z) as Hof.
  destruct (Z.to_int z) as [d|d]; cbn [NilZero.string_of_int Z.of_int] in *.
  - pose proof (NilZero_uint_no_sign d) as Hsign.
    rewrite parse_NilZero_uint, Hof, (wrap64_in_range Hz).
    destruct (NilZero.string_of_uint d) as [|[[|] [|] [|] [|] [|] [|] [|] [|]] rest];
      try reflexivity; try (now destruct Hsign).
  - cbn [parse_digits]. change (is_digit "-") with false. cbv iota.
    cbn [Nat.eqb andb Ascii.eqb Bool.eqb].
    rewrite parse_NilZero_uint, wrap64_opp, Hof. now apply wrap64_in_range.
Qed.

(** X15: the decimal text of every int64, as [strconv.Itoa] writes it, is
    parsed back to the same number by the digit loop of [parseValue]: an
    integer literal with that text evaluates to that integer (the smallest
    int64 included, where the loop overflows and the negation wraps). *)
Theorem evaluateValue_reads_back_int64 (fc : FieldCollector) (z : Z) :
  (- 2 ^ 63 <= z < 2 ^ 63)%Z ->
  parseInt64 (itoa z) = z
  /\ evaluateValue fc (Some (mkAstValue IntValue (itoa z) [])) = VInt z.
Proof.
  intros Hz. cbn [evaluateValue evalValue].
  now rewrite (parseInt64_itoa Hz).
Qed.

Lemma evaluateValue_reads_back_int64_witness :
  parseInt64 (itoa (- 2 ^ 63)) = (- 2 ^ 63)%Z
  /\ evaluateValue no_schema
       (Some (mkAstValue IntValue (itoa (- 2 ^ 63)) []))
     = VInt (- 2 ^ 63).
Proof.
  apply (@evaluateValue_reads_back_int64 no_schema (- 2 ^ 63)).
  split; [reflexivity | vm_compute; reflexivity].
Defined.

(** ** The result map of a selection set *)





Lemma selection_loop_fields execField sel parentType parentValue path st :
  selection_loop execField (Some sel) parentType parentValue path st
  = match Fields sel with
    | [] => (None, st)
    | _ =>
        let '(result, st') :=
          fields_loop execField parentType parentValue path (Fields sel) []
                      st in
        (Some (if Typename sel
               then map_set "__typename" (GScalar parentType) result
               else result), st')
    end.
Proof.
  unfold selection_loop.
  match goal with
  | |- context [?F (Fields sel) [] st] =>
      assert (Hloop : forall l result s,
                 F l result s
                 = fields_loop execField parentType parentValue path l
                               result s)
  end.
  { induction l as [|field rest IH]; intros result s; [reflexivity |].
    cbn [fields_loop].
    destruct (Executor.append (arrays s) path (PKey (GetName field)))
      as [fieldPath h].
    destruct (execField field parentType parentValue fieldPath
                (mkEState h (Executor.Errors s))) as [[value|err] s1];
      apply IH. }
  now rewrite Hloop.
Qed.


(** ** Resolvers, operations and names *)

Import SchemaBuild.

(** X17: a resolver registered for a type and field is the one [Get]
    returns for them afterwards (with the middleware it was registered
    with, none for [Register]), the type is then known to [HasType], and
    the resolver of no other type and field changes. *)
Theorem ResolverMap_register_round_trip
  (rm : ResolverMap) (typeName fieldName : string) (fn : ResolverFunc)
  (middleware : list MiddlewareFunc) :
  Get (RegisterWithMiddleware rm typeName fieldName fn middleware)
      typeName fieldName
  = Some (mkFieldResolver typeName fieldName fn middleware)
  /\ Get (Register rm typeName fieldName fn) typeName fieldName
     = Some (mkFieldResolver typeName fieldName fn [])
  /\ HasType (Register rm typeName fieldName fn) typeName = true
  /\ (forall otherType otherField,
         otherType <> typeName \/ otherField <> fieldName ->
         Get (RegisterWithMiddleware rm typeName fieldName fn middleware)
             otherType otherField
         = Get rm otherType otherField).
Proof.
  unfold Register, RegisterWithMiddleware, Get, HasType. cbn [resolvers].
  split; [now rewrite !lookup_map_set_eq |].
  split; [now rewrite !lookup_map_set_eq |].
  split; [now rewrite lookup_map_set_eq |].
  intros otherType otherField Hne.
  destruct (String.eqb otherType typeName) eqn:Ht.
  - apply String.eqb_eq in Ht. subst otherType.
    destruct Hne as [Hne | Hne]; [now elim Hne |].
    rewrite lookup_map_set_eq, (lookup_map_set_ne _ _ Hne).
    destruct (lookup typeName (resolvers rm)); reflexivity.
  - apply String.eqb_neq in Ht. now rewrite (lookup_map_set_ne _ _ Ht).
Qed.

Lemma ResolverMap_register_round_trip_witness :
  Get (Register (Register NewResolverMap "Query" "users" (fun _ => inl GNil))
                "Query" "posts" (fun _ => inr "boom"))
      "Query" "users"
  = Get (Register NewResolverMap "Query" "users" (fun _ => inl GNil))
        "Query" "users".
Proof.
  destruct (ResolverMap_register_round_trip
              (Register NewResolverMap "Query" "users" (fun _ => inl GNil))
              "Query" "posts" (fun _ => inr "boom") [])
    as (_ & _ & _ & Hother).
  apply (Hother "Query" "users"). right. discriminate.
Defined.

Lemma wrap_from_last_app l mw resolver :
  wrap_from_last (l ++ [mw]) resolver
  = fun args => mw (wrap_from_last l resolver) args.
Proof.
  revert resolver. induction l as [|x l IH]; intros resolver; [reflexivity |].
  cbn [app wrap_from_last]. apply IH.
Qed.

(** X18: [Resolve] without middleware calls the resolver function; with
    middleware, the first one of the list is the outermost: it is called
    with the resolver that the rest of the list wraps. *)
Theorem first_middleware_is_outermost
  (typeName fieldName : string) (fn : ResolverFunc) (mw : MiddlewareFunc)
  (rest : list MiddlewareFunc) (args : list (string * Value)) :
  Resolve (mkFieldResolver typeName fieldName fn []) args = fn args
  /\ Resolve (mkFieldResolver typeName fieldName fn (mw :: rest)) args
     = mw (ResolveWithMiddleware (mkFieldResolver typeName fieldName fn rest))
          args.
Proof.
  unfold Resolve, ResolveWithMiddleware. cbn [Middleware ResolverFn rev].
  split; [reflexivity |]. now rewrite wrap_from_last_app.
Qed.

Lemma first_named_spec ops name :
  match first_named ops name with
  | Some op => In op ops /\ OpName op = name
  | None => forall op, In op ops -> OpName op <> name
  end.
Proof.
  induction ops as [|op rest IH]; cbn [first_named]; [intros ? [] |].
  destruct (String.eqb (OpName op) name) eqn:Hn.
  - apply String.eqb_eq in Hn. split; [now left | exact Hn].
  - apply String.eqb_neq in Hn.
    destruct (first_named rest name) as [found|].
    + destruct IH as [Hin Heq]. split; [now right | exact Heq].
    + intros op' [<- | Hin]; [exact Hn | now apply IH].
Qed.

(** X19: [findOperation] returns an operation of the document: the only
    one when no name is given, otherwise the first one with the given name.
    It fails on a document without operations, on a missing name when
    there are several operations, and on a name no operation has. *)
Theorem findOperation_selects_by_name
  (ops : list OperationDefinition) (operationName : string) :
  match findOperation ops operationName with
  | inl op =>
      In op ops
      /\ (operationName = "" -> ops = [op])
      /\ (operationName <> "" -> OpName op = operationName)
  | inr NoOperations => ops = []
  | inr NameRequired => operationName = "" /\ (2 <= length ops)%nat
  | inr (NotFound name) =>
      name = operationName /\ operationName <> "" /\ ops <> []
      /\ forall op, In op ops -> OpName op <> operationName
  end.
Proof.
  unfold findOperation.
  destruct ops as [|op0 rest]; [reflexivity |].
  destruct (String.eqb operationName "") eqn:Hn.
  - apply String.eqb_eq in Hn.
    destruct rest as [|op1 rest].
    + split; [now left | split; [reflexivity | intros H; now elim H]].
    + split; [exact Hn | cbn [length]; lia].
  - apply String.eqb_neq in Hn.
    pose proof (first_named_spec (op0 :: rest) operationName) as Hspec.
    destruct (first_named (op0 :: rest) operationName) as [found|].
    + destruct Hspec as [Hin Heq].
      split; [exact Hin | split; [intros H; now elim Hn | now intros _]].
    + repeat split; auto. discriminate.
Qed.

(** X20: [capitalize] turns a leading lower-case ASCII letter into its
    upper-case letter and keeps the rest; a leading upper-case letter is
    not kept: 32 is subtracted from it as well, which gives a byte that is
    not a letter. *)
Theorem capitalize_first_byte (c : ascii) (rest : string) :
  capitalize "" = ""
  /\ (is_lower c = true ->
      capitalize (String c rest)
      = String (ascii_of_nat (nat_of_ascii c - 32)) rest
      /\ is_upper (ascii_of_nat (nat_of_ascii c - 32)) = true)
  /\ (is_upper c = true ->
      exists c',
        capitalize (String c rest) = String c' rest
        /\ is_upper c' = false /\ is_lower c' = false).
Proof.
  split; [reflexivity |].
  split.
  - intros Hc. unfold capitalize.
    destruct c as [[|] [|] [|] [|] [|] [|] [|] [|]];
      vm_compute in Hc; try discriminate; split; reflexivity.
  - intros Hc. unfold capitalize.
    destruct c as [[|] [|] [|] [|] [|] [|] [|] [|]];
      vm_compute in Hc; try discriminate;
      eexists; (split; [reflexivity | split; reflexivity]).
Qed.

Lemma capitalize_first_byte_witness :
  capitalize "posts" = "Posts"
  /\ exists c', capitalize "Posts" = String c' "osts"
                /\ is_upper c' = false /\ is_lower c' = false.
Proof.
  destruct (capitalize_first_byte "p"%char "osts") as (_ & Hlower & _).
  destruct (capitalize_first_byte "P"%char "osts") as (_ & _ & Hupper).
  split; [apply Hlower; reflexivity | apply Hupper; reflexivity].
Defined.

(** X21: the type reference [convertTypeRef] builds from a schema type
    unwraps, through all its list and non-null wrappers, to the name at
    the end of the element chain; a nil type unwraps to the empty name. *)
Theorem unwrapTypeName_of_converted_type (t : AstType) :
  unwrapTypeName (convertTypeRef (Some t)) = innermost t
  /\ unwrapTypeName (convertTypeRef None) = "".
Proof.
  split; [| reflexivity]. cbn [convertTypeRef unwrapTypeName].
  revert t. fix IH 1. intros [namedType [e|] nonNull].
  - cbn [convertRef unwrapRef innermost]. apply IH.
  - reflexivity.
Qed.

(** ** UPDATE: SET values and filter parameters *)







(** ** The errors of a request *)

Lemma update_length {A : Type} (i : nat) (x : A) (l : list A) :
  length (update i x l) = length l.
Proof.
  revert i. induction l as [|y rest IH]; intros i; [now destruct i |].
  destruct i; cbn [update length]; [reflexivity | now rewrite IH].
Qed.

Lemma append_keeps_arrays h s x :
  (length h <= length (snd (Executor.append h s x)))%nat.
Proof.
  unfold Executor.append. destruct (len s <? cap s)%nat; cbn [snd].
  - now rewrite update_length.
  - rewrite length_app. cbn [length]. lia.
Qed.

Lemma appends_errors_refl st : appends_errors st st.
Proof. split; [exists []; now rewrite app_nil_r | lia]. Qed.

Lemma appends_errors_trans st1 st2 st3 :
  appends_errors st1 st2 -> appends_errors st2 st3 -> appends_errors st1 st3.
Proof.
  intros [[a1 H1] L1] [[a2 H2] L2]. split; [| lia].
  exists (a1 ++ a2)%list. now rewrite H2, H1, app_assoc.
Qed.

Lemma appends_errors_append st s x :
  appends_errors st
    (mkEState (snd (Executor.append (arrays st) s x)) (Executor.Errors st)).
Proof.
  split; cbn [Executor.Errors arrays];
    [exists []; now rewrite app_nil_r | apply append_keeps_arrays].
Qed.

Lemma appends_errors_AddError st err : appends_errors st (AddError st err).
Proof. split; [now exists [err] | cbn; lia]. Qed.

Section Monotone.

Variable schema : Schema.
Variable resolvers :
  string -> string -> option (list (string * Value) -> GoVal + string).
Variable introspectSchema : SelectedField -> GoVal + string.
Variable introspectType : SelectedField -> string -> GoVal + string.

Lemma fields_loop_kept execField parentType parentValue path fs :
  (forall field, In field fs -> forall pt pv p st,
     kept_value (never_fail resolvers introspectSchema introspectType) st (execField field pt pv p st)) ->
  forall result st,
    kept (never_fail resolvers introspectSchema introspectType) st (fields_loop execField parentType parentValue path fs result st).
Proof.
  induction fs as [|field rest IH]; intros Hexec result st.
  - split; [apply appends_errors_refl | reflexivity].
  - cbn [fields_loop].
    pose proof (appends_errors_append st path (PKey (GetName field))) as Happ.
    destruct (Executor.append (arrays st) path (PKey (GetName field)))
      as [fieldPath h]. cbn [snd] in Happ.
    pose proof (Hexec field (or_introl eq_refl) parentType parentValue
                  fieldPath (mkEState h (Executor.Errors st))) as [[Hk Hn] Hv].
    destruct (execField field parentType parentValue fieldPath
                (mkEState h (Executor.Errors st))) as [[value | err] st1];
      cbn [fst snd] in Hk, Hn, Hv.
    + destruct (IH (fun f Hin => Hexec f (or_intror Hin))
                  (map_set (GetName field) value result) st1) as [Hk2 Hn2].
      split.
      * eapply appends_errors_trans; [exact Happ |].
        eapply appends_errors_trans; [exact Hk | exact Hk2].
      * intros Hnf. rewrite (Hn2 Hnf), (Hn Hnf). reflexivity.
    + destruct (IH (fun f Hin => Hexec f (or_intror Hin))
                  (map_set (GetName field) GNil result)
                  (AddError st1 (mkError err fieldPath))) as [Hk2 Hn2].
      split.
      * eapply appends_errors_trans; [exact Happ |].
        eapply appends_errors_trans; [exact Hk |].
        eapply appends_errors_trans; [apply appends_errors_AddError |].
        exact Hk2.
      * intros Hnf. destruct (Hv Hnf) as [v Hv']. discriminate.
Qed.

Lemma gsize_in_list x items :
  In x items -> (gsize x < gsize (GList items))%nat.
Proof.
  cbn [gsize]. induction items as [|y rest IH]; intros Hin; [easy |].
  destruct Hin as [<- | Hin]; [lia | specialize (IH Hin); lia].
Qed.

Lemma fsize_in_fields f fs typename name alias args dirs :
  In f fs ->
  (fsize f
   < fsize (mkField name alias args (Some (mkSelectionSet fs typename)) dirs))%nat.
Proof.
  cbn [fsize]. induction fs as [|y rest IH]; intros Hin; [easy |].
  destruct Hin as [<- | Hin]; [lia | specialize (IH Hin); lia].
Qed.

Lemma kept_value_refl st v : kept_value (never_fail resolvers introspectSchema introspectType) st (inl v, st).
Proof.
  split; [split; [apply appends_errors_refl | reflexivity] |].
  intros _. now exists v.
Qed.

Lemma executeField_kept_below n :
  forall field, (fsize field < n)%nat -> forall pt pv p st,
    kept_value (never_fail resolvers introspectSchema introspectType) st
      (executeField schema resolvers introspectSchema introspectType
         field pt pv p st).
Proof.
  induction n as [|n IH]; intros field Hsz pt pv p st; [lia |].
  destruct field as [name alias args sels dirs].
  cbn [executeField].
  assert (Hfail : forall (r : GoVal + string),
             (never_fail resolvers introspectSchema introspectType ->
              exists v, r = inl v) ->
             kept_value (never_fail resolvers introspectSchema introspectType) st (r, st)).
  { intros r Hr. split; [split; [apply appends_errors_refl | reflexivity] |].
    exact Hr. }
  destruct (name =? "__schema");
    [apply Hfail; intros (_ & Hs & _); apply Hs |].
  destruct (name =? "__type");
    [apply Hfail; intros (_ & _ & Ht); apply Ht |].
  destruct (name =? "__typename"); [apply kept_value_refl |].
  assert (Hres : never_fail resolvers introspectSchema introspectType ->
                 exists v,
                   match resolvers pt name with
                   | Some resolver => resolver args
                   | None => inl (defaultResolve pv name)
                   end = inl v).
  { intros (Hr & _ & _). destruct (resolvers pt name) as [resolver|] eqn:Hlk;
      [apply (Hr pt name resolver args Hlk) | now eexists]. }
  destruct (match resolvers pt name with
            | Some resolver => resolver args
            | None => inl (defaultResolve pv name)
            end) as [value | err]; [| apply Hfail; exact Hres].
  clear Hres Hfail.
  match goal with |- kept_value (never_fail resolvers introspectSchema introspectType) st (?F value p st) => set (cv := F) end.
  assert (Hcv : forall m value, (gsize value < m)%nat -> forall path st,
             kept_value (never_fail resolvers introspectSchema introspectType) st (cv value path st)).
  { clear value p st.
    induction m as [|m IHm]; intros value Hg path st; [lia |].
    destruct value as [| text | items | entries].
    - apply kept_value_refl.
    - apply kept_value_refl.
    - cbn.
      match goal with |- kept_value (never_fail resolvers introspectSchema introspectType) st (?G items 0%Z [] st) =>
        set (clv := G) end.
      assert (Hclv : forall xs, (forall x, In x xs -> (gsize x < m)%nat) ->
                 forall i result st, kept_value (never_fail resolvers introspectSchema introspectType) st (clv xs i result st)).
      { induction xs as [|item rest IHxs]; intros Hxs i result st0.
        - apply kept_value_refl.
        - cbn.
          pose proof (appends_errors_append st0 path (PIdx i)) as Happ.
          destruct (Executor.append (arrays st0) path (PIdx i))
            as [itemPath h]. cbn [snd] in Happ.
          pose proof (IHm item (Hxs item (or_introl eq_refl)) itemPath
                        (mkEState h (Executor.Errors st0)))
            as [[Hk Hn] Hv].
          destruct (cv item itemPath (mkEState h (Executor.Errors st0)))
            as [[completed | err] st1]; cbn [fst snd] in Hk, Hn, Hv.
          + destruct (IHxs (fun x Hin => Hxs x (or_intror Hin)) (i + 1)%Z
                        (result ++ [completed])%list st1)
              as [[Hk2 Hn2] Hv2].
            split; [split |].
            * eapply appends_errors_trans; [exact Happ |].
              eapply appends_errors_trans; [exact Hk | exact Hk2].
            * intros Hnf. now rewrite (Hn2 Hnf), (Hn Hnf).
            * exact Hv2.
          + split; [split |]; cbn [fst snd].
            * eapply appends_errors_trans; [exact Happ | exact Hk].
            * intros Hnf. now rewrite (Hn Hnf).
            * exact Hv. }
      apply Hclv. intros x Hin.
      pose proof (gsize_in_list x items Hin). lia.
    - cbn.
      destruct (HasSelection (mkField name alias args sels dirs)) eqn:Hhas;
        [| apply kept_value_refl].
      destruct sels as [[fs typename]|]; [| discriminate].
      rewrite selection_loop_fields. cbn [Fields Typename].
      destruct fs as [|f0 fs0]; [apply kept_value_refl |].
      pose proof (@fields_loop_kept
                    (executeField schema resolvers introspectSchema
                       introspectType)
                    (getFieldTypeName schema pt name) (GMap entries) path
                    (f0 :: fs0)) as Hloop.
      destruct (Hloop
                  (fun f Hin =>
                     IH f ltac:(pose proof (@fsize_in_fields f (f0 :: fs0)
                                              typename name alias args dirs
                                              Hin); lia))
                  [] st) as [Hk Hn].
      destruct (fields_loop _ _ _ _ _ _ _) as [result st1].
      cbn [fst snd] in Hk, Hn.
      split; [split |]; cbn [fst snd]; [exact Hk | exact Hn |].
      intros _. now eexists. }
  apply (Hcv (S (gsize value))). lia.
Qed.

Lemma executeField_kept field pt pv p st :
  kept_value (never_fail resolvers introspectSchema introspectType) st
    (executeField schema resolvers introspectSchema introspectType
       field pt pv p st).
Proof. apply executeField_kept_below with (n := S (fsize field)). lia. Qed.

Lemma executeSelectionSet_kept selections parentType parentValue path st :
  kept (never_fail resolvers introspectSchema introspectType) st
    (executeSelectionSet schema resolvers introspectSchema introspectType
       selections parentType parentValue path st).
Proof.
  unfold executeSelectionSet.
  destruct selections as [sel|];
    [| split; [apply appends_errors_refl | reflexivity]].
  rewrite selection_loop_fields.
  destruct (Fields sel) as [|f0 fs0] eqn:Hfs;
    [split; [apply appends_errors_refl | reflexivity] |].
  destruct (@fields_loop_kept
              (executeField schema resolvers introspectSchema introspectType)
              parentType parentValue path (f0 :: fs0)
              (fun f _ => executeField_kept f) [] st) as [Hk Hn].
  destruct (fields_loop _ _ _ _ _ _ _) as [result st1].
  split; [exact Hk | exact Hn].
Qed.

End Monotone.

(** X23: [executeSelectionSet] never removes or reorders an error that was
    recorded before it ran: the errors of the request afterwards are the
    earlier ones followed by the new ones, and no array behind a path is
    dropped.  (The text of a recorded path can still change, since paths
    share arrays; the messages and their order cannot.) *)
Theorem executeSelectionSet_only_appends_errors
  (schema : Schema)
  (resolvers : string -> string ->
               option (list (string * Value) -> GoVal + string))
  (introspectSchema : SelectedField -> GoVal + string)
  (introspectType : SelectedField -> string -> GoVal + string)
  (selections : option SelectionSet) (parentType : string)
  (parentValue : GoVal) (path : slice) (st : estate) :
  appends_errors st
    (snd (executeSelectionSet schema resolvers introspectSchema
            introspectType selections parentType parentValue path st))
  /\ exists added,
       map Message
         (Executor.Errors
            (snd (executeSelectionSet schema resolvers introspectSchema
                    introspectType selections parentType parentValue path
                    st)))
       = (map Message (Executor.Errors st) ++ added)%list.
Proof.
  destruct (executeSelectionSet_kept schema resolvers introspectSchema
              introspectType selections parentType parentValue path st)
    as [Hk _].
  split; [exact Hk |].
  destruct Hk as [[added Hadded] _]. exists (map Message added).
  now rewrite Hadded, map_app.
Qed.

(** X24: the executor reports no error of its own: when no resolver and no
    introspection entry point returns an error, [executeField] returns a
    value for every field, and [executeSelectionSet] leaves the errors of
    the request as they were. *)
Theorem executor_adds_no_error_of_its_own
  (schema : Schema)
  (resolvers : string -> string ->
               option (list (string * Value) -> GoVal + string))
  (introspectSchema : SelectedField -> GoVal + string)
  (introspectType : SelectedField -> string -> GoVal + string) :
  never_fail resolvers introspectSchema introspectType ->
  (forall field parentType parentValue path st,
     exists v,
       fst (executeField schema resolvers introspectSchema introspectType
              field parentType parentValue path st) = inl v)
  /\ (forall selections parentType parentValue path st,
        Executor.Errors
          (snd (executeSelectionSet schema resolvers introspectSchema
                  introspectType selections parentType parentValue path st))
        = Executor.Errors st).
Proof.
  intros Hnf. split.
  - intros field parentType parentValue path st.
    destruct (executeField_kept schema resolvers introspectSchema
                introspectType field parentType parentValue path st)
      as [_ Hv].
    exact (Hv Hnf).
  - intros selections parentType parentValue path st.
    destruct (executeSelectionSet_kept schema resolvers introspectSchema
                introspectType selections parentType parentValue path st)
      as [_ Hn].
    exact (Hn Hnf).
Qed.

Lemma executor_adds_no_error_of_its_own_witness :
  Executor.Errors
    (snd (executeSelectionSet Inputs.users_schema
            (fun _ _ => None) (fun _ => inl GNil) (fun _ _ => inl GNil)
            Inputs.four_levels "Query" Inputs.root_value nil_slice
            (mkEState [] [mkError "earlier" nil_slice])))
  = [mkError "earlier" nil_slice].
Proof.
  destruct (@executor_adds_no_error_of_its_own Inputs.users_schema
              (fun _ _ => None) (fun _ => inl GNil) (fun _ _ => inl GNil))
    as [_ Hsel].
  - split; [intros ? ? ? ? Hnone; discriminate Hnone |].
    split; intros; now eexists.
  - apply (Hsel Inputs.four_levels "Query" Inputs.root_value nil_slice
             (mkEState [] [mkError "earlier" nil_slice])).
Defined.


(** ** A plain SELECT, end to end *)

Lemma collect_loop_scalars c typeName tableAlias fields :
  (forall f, In f fields ->
     lookup (typeName ++ "." ++ Name f) (joinConfig c) = None) ->
  forall columns joins,
    collect_loop c typeName tableAlias fields columns joins
    = Ok ((columns ++ map (scalar_column c typeName tableAlias) fields)%list,
          joins).
Proof.
  induction fields as [|field rest IH]; intros Hno columns joins.
  - cbn. now rewrite app_nil_r.
  - cbn [collect_loop]. rewrite (Hno field (or_introl eq_refl)).
    rewrite IH by (intros f Hin; apply Hno; now right).
    cbn [map]. now rewrite <- app_assoc.
Qed.

(** X25: end to end, for the PostgreSQL dialect: a query whose selected
    fields have no join configuration and whose arguments hold none of
    where, filter, limit, first, offset, skip and orderBy is converted to
    a SELECT of one column per selected field, in order (or of * when
    nothing is selected), FROM the quoted table under the alias, with the
    one condition alias.id = $1 and the one parameter when an id argument
    is given, and no condition and no parameter otherwise.  No other
    argument is read, and [Validate] finds nothing. *)
Theorem ConvertToSelect_scalar_fields_by_id
  (c : SQLConverter) (info : ResolveInfo) (rootType : TypeRef) :
  dialect c = PostgreSQL ->
  ReturnType info = Some rootType ->
  unwrapTypeName (Some rootType) <> "" ->
  (forall f, In f (fields_of (Convert.Selection info)) ->
     lookup (unwrapTypeName (Some rootType) ++ "." ++ Name f) (joinConfig c)
     = None) ->
  (forall key,
     In key ["where"; "filter"; "limit"; "first"; "offset"; "skip";
             "orderBy"] ->
     lookup key (IArguments info) = None) ->
  (forall id, lookup "id" (IArguments info) = Some id -> non_nil id) ->
  let typeName := unwrapTypeName (Some rootType) in
  let tableAlias := to_lower (substring 0 1 typeName) in
  exists r,
    ConvertToSelect c info = Ok r
    /\ Query r
       = "SELECT " ++
         (if Dialect.nonempty (fields_of (Convert.Selection info))
          then join (map (scalar_column c typeName tableAlias)
                         (fields_of (Convert.Selection info))) ", "
          else "*") ++
         nl ++ "FROM " ++ Dialect.QuoteIdentifier (getTableName c typeName) ++
         " " ++ tableAlias ++
         match lookup "id" (IArguments info) with
         | Some _ => nl ++ "WHERE " ++ tableAlias ++ ".id = $1"
         | None => ""
         end
    /\ RParams r
       = match lookup "id" (IArguments info) with
         | Some id => [id]
         | None => []
         end
    /\ Convert.Errors r = [].
Proof.
  intros Hd Hrt Hname Hno Hargs Hid. cbv zeta.
  unfold ConvertToSelect. rewrite Hrt.
  remember (unwrapTypeName (Some rootType)) as typeName eqn:Htn.
  rewrite (slice_to_nonempty Hname). cbn [bind TableAlias].
  pose proof (to_lower_first_nonempty Hname) as Halias.
  remember (to_lower (substring 0 1 typeName)) as tableAlias eqn:Hta.
  assert (Hcols : collectColumnsAndJoins c typeName tableAlias
                    (Convert.Selection info)
                  = Ok (map (scalar_column c typeName tableAlias)
                            (fields_of (Convert.Selection info)), [])).
  { unfold collectColumnsAndJoins, fields_of in *.
    destruct (Convert.Selection info) as [sel|]; [| reflexivity].
    now rewrite collect_loop_scalars. }
  rewrite Hcols. cbn [bind fst snd].
  unfold processArguments, order_by_columns.
  rewrite (Hargs "where"), (Hargs "filter"), (Hargs "limit"),
    (Hargs "first"), (Hargs "offset"), (Hargs "skip"), (Hargs "orderBy")
    by (cbn; tauto).
  cbn [apply_filter TableName TableAlias Columns DistinctOn Joins Where
       GroupBy Having OrderBy NullsFirst Limit Offset ForUpdate ForUpdateOf
       app].
  rewrite Hd. cbn [dQuoteIdentifier].
  destruct (lookup "id" (IArguments info)) as [id|] eqn:Hlk.
  - rewrite (MarshalValue_non_nil _ (Hid id eq_refl)).
    cbn [Reset placeholderCounter params app Z.add].
    eexists. split; [reflexivity |].
    unfold BuildSelect, select_text, Validate.
    cbn [fst snd Query RParams Convert.Errors
         TableName TableAlias Columns DistinctOn Joins Where
         GroupBy Having OrderBy NullsFirst Limit Offset ForUpdate ForUpdateOf
         Dialect.nonempty str_nonempty map String.concat existsb andb negb
         app join String.eqb Params params].
    rewrite Halias, nonempty_map.
    split; [| split; reflexivity].
    change (itoa 1) with "1".
    rewrite !append_assoc, !append_empty_r. cbn [String.append].
    reflexivity.
  - eexists. split; [reflexivity |].
    unfold BuildSelect, select_text, Validate.
    cbn [fst snd Query RParams Convert.Errors
         TableName TableAlias Columns DistinctOn Joins Where
         GroupBy Having OrderBy NullsFirst Limit Offset ForUpdate ForUpdateOf
         Dialect.nonempty str_nonempty map String.concat existsb andb negb
         app join String.eqb Params params Reset].
    rewrite Halias, nonempty_map.
    split; [| split; reflexivity].
    rewrite !append_assoc, !append_empty_r. cbn [String.append].
    reflexivity.
Qed.

Lemma ConvertToSelect_scalar_fields_by_id_witness :
  exists r,
    ConvertToSelect Inputs.users_converter
      (mkInfo (Some (Inputs.list_of "User"))
              [("id", VInt 7); ("verbose", VBool true)]
              (Some (mkSelectionSet
                       [Inputs.selected "id" None;
                        mkField "firstName" "name" [] None []] false)))
    = Ok r
    /\ Query r
       = "SELECT u." ++ Dialect.QuoteIdentifier "id" ++ ", u." ++
         Dialect.QuoteIdentifier "first_name" ++ " AS " ++
         Dialect.QuoteIdentifier "name" ++ nl ++
         "FROM " ++ Dialect.QuoteIdentifier "users" ++ " u" ++ nl ++
         "WHERE u.id = $1"
    /\ RParams r = [VInt 7]
    /\ Convert.Errors r = [].
Proof.
  refine (@ConvertToSelect_scalar_fields_by_id Inputs.users_converter
            (mkInfo (Some (Inputs.list_of "User"))
                    [("id", VInt 7); ("verbose", VBool true)]
                    (Some (mkSelectionSet
                             [Inputs.selected "id" None;
                              mkField "firstName" "name" [] None []] false)))
            (Inputs.list_of "User") eq_refl eq_refl _ _ _ _).
  - vm_compute. discriminate.
  - intros f [<- | [<- | []]]; reflexivity.
  - intros key Hin. cbn [In] in Hin.
    repeat (destruct Hin as [<- | Hin]; [reflexivity |]). contradiction.
  - intros id Hlk. vm_compute in Hlk. injection Hlk as <-. discriminate.
Defined.

(** ** Extensions *)

(** X26: persisted queries round-trip through [APQ]: after a request that
    carries a query and a hash (which is left as it is, and replaces
    whatever was cached under that hash; the hash is not checked against
    the query), a request with the same hash and an empty query is given
    the stored query and no error; the entries of other hashes are not
    touched.  A request with an empty query and a hash that is not cached
    gets one PersistedQueryNotFound error. *)
Theorem APQ_returns_the_query_stored_under_its_hash
  (a : Extensions.APQ) (store fetch : Extensions.RequestContext)
  (hash : string) (ext1 ext2 : list (string * Value)) :
  lookup "persistedQuery" (Extensions.Extensions store) = Some (VMap ext1) ->
  lookup "sha256Hash" ext1 = Some (VStr hash) ->
  lookup "persistedQuery" (Extensions.Extensions fetch) = Some (VMap ext2) ->
  lookup "sha256Hash" ext2 = Some (VStr hash) ->
  Extensions.Query store <> "" ->
  Extensions.Query fetch = "" ->
  let a1 := fst (Extensions.APQInterceptOperation a (Some store)) in
  snd (Extensions.APQInterceptOperation a (Some store)) = Some store
  /\ Extensions.APQInterceptOperation a1 (Some fetch)
     = (a1, Some (Extensions.mkRequestContext
                    (Extensions.Query store) (Extensions.Errors fetch)
                    (Extensions.Extensions fetch) (Extensions.values fetch)))
  /\ (forall other, other <> hash ->
        lookup other (Extensions.cache a1)
        = lookup other (Extensions.cache a))
  /\ (lookup hash (Extensions.cache a) = None ->
      Extensions.APQInterceptOperation a (Some fetch)
      = (a, Some (Extensions.AddError fetch
                    (Extensions.mkError "PersistedQueryNotFound"
                       [("code", VStr "PERSISTED_QUERY_NOT_FOUND")])))).
Proof.
  intros Hp1 Hh1 Hp2 Hh2 Hq1 Hq2. cbv zeta.
  assert (Hne : String.eqb (Extensions.Query store) "" = false)
    by now apply String.eqb_neq.
  unfold Extensions.APQInterceptOperation.
  rewrite Hp1, Hh1, Hne, Hp2, Hh2, Hq2. cbn [fst snd String.eqb].
  cbn [Extensions.cache]. rewrite lookup_map_set_eq.
  repeat split.
  - intros other Hother. now apply lookup_map_set_ne.
  - intros Hnone. now rewrite Hnone.
Qed.

Lemma APQ_returns_the_query_stored_under_its_hash_witness :
  Extensions.APQInterceptOperation
    (fst (Extensions.APQInterceptOperation
            (Extensions.mkAPQ [("abc", "{ old }")])
            (Some (Extensions.mkRequestContext "{ users { id } }" []
                     [("persistedQuery",
                       VMap [("sha256Hash", VStr "abc")])] []))))
    (Some (Extensions.mkRequestContext "" []
             [("persistedQuery", VMap [("sha256Hash", VStr "abc")])] []))
  = (Extensions.mkAPQ [("abc", "{ users { id } }")],
     Some (Extensions.mkRequestContext "{ users { id } }" []
             [("persistedQuery", VMap [("sha256Hash", VStr "abc")])] [])).
Proof.
  destruct (@APQ_returns_the_query_stored_under_its_hash
              (Extensions.mkAPQ [("abc", "{ old }")])
              (Extensions.mkRequestContext "{ users { id } }" []
                 [("persistedQuery", VMap [("sha256Hash", VStr "abc")])] [])
              (Extensions.mkRequestContext "" []
                 [("persistedQuery", VMap [("sha256Hash", VStr "abc")])] [])
              "abc" [("sha256Hash", VStr "abc")]
              [("sha256Hash", VStr "abc")]
              eq_refl eq_refl eq_refl eq_refl)
    as (_ & Hfetch & _); [discriminate | reflexivity |].
  exact Hfetch.
Defined.

(** X27: [ComplexityLimit] and [IntrospectionDisabler] never reject a
    request: whatever the limit and the query, [InterceptOperation] of the
    first adds no error and records the complexity 0, and that of the
    second returns the request context as it was.  The complexity and the
    introspection check they rely on are constant. *)
Theorem complexity_and_introspection_checks_never_reject
  (c : Extensions.ComplexityLimit) (rc : Extensions.RequestContext) :
  (exists rc',
     Extensions.ComplexityInterceptOperation c (Some rc) = Some rc'
     /\ Extensions.Errors rc' = Extensions.Errors rc
     /\ Extensions.Query rc' = Extensions.Query rc
     /\ Extensions.Get rc' "complexity" = Some (VInt 0)
     /\ Extensions.HasErrors rc' = Extensions.HasErrors rc)
  /\ Extensions.IntrospectionInterceptOperation (Some rc) = Some rc.
Proof.
  split; [| reflexivity].
  unfold Extensions.ComplexityInterceptOperation,
    Extensions.CalculateComplexity.
  assert (Hcond : ((0 <? Extensions.limit c)%Z
                   && (Extensions.limit c <? 0)%Z) = false).
  { destruct (Z.ltb_spec 0 (Extensions.limit c));
      destruct (Z.ltb_spec (Extensions.limit c) 0); try reflexivity; lia. }
  rewrite Hcond. eexists. split; [reflexivity |].
  unfold Extensions.Get, Extensions.Set_, Extensions.HasErrors.
  cbn [Extensions.Errors Extensions.Query Extensions.values].
  now rewrite lookup_map_set_eq.
Qed.
